(** * safe_dialog: the masking front end and its token grammar

    A shallow embedding of the TypeScript sources of safe_dialog:
    - [lib/utils.ts]: [renderMaskedHtml] and [extractPlaceholdersFromMasked],
      with the two regular expressions of the placeholder grammar;
    - [lib/api.ts]: the axios client, its response interceptor,
      [handleApiResponse] and the [apiClient] operations;
    - [hooks/useApi.ts]: the react-query mutation hooks of the entity dictionary;
    - [components/SafeDialogApp.tsx]: [handleMaskText].

    The masking and demasking engine itself runs on the server and is not
    part of these sources; module [Engine] models it from the
    specification.

    JavaScript strings are sequences of UTF-16 code units; they are modelled
    as lists of code units ([N]).  Exceptions are an explicit error result. *)

From Stdlib Require Import NArith ZArith Bool Ascii String Lia Arith.
From Stdlib Require Import DecimalString DecimalNat.
From Stdlib Require Import List.
Import ListNotations.

Set Implicit Arguments.

(* ===================================================================== *)
(** ** JavaScript strings *)
(* ===================================================================== *)

Module Js.

(** A UTF-16 code unit. *)
Definition char := N.

(** A JavaScript string. *)
Definition text := list char.

Definition ch (a : ascii) : char := N_of_ascii a.

(** An ASCII literal as a JavaScript string. *)
Definition str (s : string) : text := map ch (list_ascii_of_string s).

Definition dquote : char := 34%N.
Definition squote : char := 39%N.
Definition lbrace : char := 123%N.
Definition rbrace : char := 125%N.
Definition comma : char := 44%N.
Definition underscore : char := 95%N.

Definition char_eqb (a b : char) : bool := N.eqb a b.

Arguments char_eqb : simpl never.

Fixpoint text_eqb (a b : text) : bool :=
  match a, b with
  | [], [] => true
  | x :: a', y :: b' => char_eqb x y && text_eqb a' b'
  | _, _ => false
  end.

Definition between (lo hi c : char) : bool := (N.leb lo c && N.leb c hi)%bool.

(** [LineTerminator] of ECMAScript: LF, CR, LS, PS.  The dot of a regular
    expression without the [s] flag matches everything else. *)
Definition line_terminator (c : char) : bool :=
  (char_eqb c 10 || char_eqb c 13 || char_eqb c 8232 || char_eqb c 8233)%N%bool.

Definition dot (c : char) : bool := negb (line_terminator c).

(** The class [\s]: WhiteSpace and LineTerminator of ECMAScript.  It is also
    the set that [String.prototype.trim] strips. *)
Definition white_space (c : char) : bool :=
  (between 9 13 c || char_eqb c 32 || char_eqb c 160 || char_eqb c 5760
   || between 8192 8202 c || char_eqb c 8232 || char_eqb c 8233
   || char_eqb c 8239 || char_eqb c 8287 || char_eqb c 12288
   || char_eqb c 65279)%N%bool.

Definition upper (c : char) : bool := between 65%N 90%N c.
Definition digit (c : char) : bool := between 48%N 57%N c.

(** [s.startsWith(p)], returning what follows the prefix. *)
Fixpoint strip_prefix (p s : text) : option text :=
  match p with
  | [] => Some s
  | x :: p' =>
      match s with
      | y :: s' => if char_eqb x y then strip_prefix p' s' else None
      | [] => None
      end
  end.

(** [s.indexOf(needle)], with [from] the index of the head of [s];
    [-1] when there is no occurrence. *)
Fixpoint indexOf_from (from : Z) (needle s : text) : Z :=
  match strip_prefix needle s with
  | Some _ => from
  | None =>
      match s with
      | [] => (-1)%Z
      | _ :: s' => indexOf_from (from + 1) needle s'
      end
  end.

Definition indexOf (s needle : text) : Z := indexOf_from 0 needle s.

(** [s.lastIndexOf(needle)]: the greatest index of an occurrence, or [-1]. *)
Fixpoint lastIndexOf_from (from : Z) (needle s : text) : Z :=
  let here := match strip_prefix needle s with Some _ => from | None => (-1)%Z end in
  match s with
  | [] => here
  | _ :: s' =>
      let later := lastIndexOf_from (from + 1) needle s' in
      if (later <? 0)%Z then here else later
  end.

Definition lastIndexOf (s needle : text) : Z := lastIndexOf_from 0 needle s.

(** [s.substring(a, b)]: negative arguments count as 0, arguments past the
    end as the length, and the two are swapped when [a > b]. *)
Definition substring (s : text) (a b : Z) : text :=
  let clamp z := Z.to_nat (Z.min (Z.max z 0) (Z.of_nat (length s))) in
  let a' := clamp a in
  let b' := clamp b in
  let lo := Nat.min a' b' in
  let hi := Nat.max a' b' in
  firstn (hi - lo) (skipn lo s).

(** [s.trim()] is truthy exactly when [s] has a code unit that is not white
    space. *)
Definition trim_truthy (s : text) : bool := existsb (fun c => negb (white_space c)) s.

End Js.

Import Js.

(* ===================================================================== *)
(** ** Regular expressions of lib/utils.ts *)
(* ===================================================================== *)

Module Regex.

(** The longest run of code units in a class, and what follows it: a greedy
    [C*] whose continuation starts with a code unit outside [C]. *)
Fixpoint span_of (p : char -> bool) (s : text) : text * text :=
  match s with
  | c :: s' =>
      if p c then let (run, rest) := span_of p s' in (c :: run, rest)
      else ([], s)
  | [] => ([], [])
  end.

(** A successful match of [detailedPattern]: the whole match and the three
    capture groups, in the order the replace callback receives them
    ([fullMatch], [id], [quote], [placeholder]), and the text after it.  The
    projections carry the prefix [m_]. *)
Record DetailedMatch := {
  m_fullMatch : text;
  m_id : text;
  m_quote : char;
  m_placeholder : text;
  m_after : text
}.

(** [[^,}]]. *)
Definition id_char (c : char) : bool := negb (char_eqb c comma || char_eqb c rbrace).

(** The second group: a single or a double quote. *)
Definition quote_char (c : char) : bool := char_eqb c squote || char_eqb c dquote.

(** [\2\s*\}] at the head of [s]: the quote that opened the value, white
    space, the closing brace.  [}] is not white space, so the greedy [\s*]
    never has to give code units back. *)
Definition closing (q : char) (s : text) : option (text * text) :=
  match s with
  | c :: s' =>
      if char_eqb c q then
        let (ws, r) := span_of white_space s' in
        match r with
        | b :: r' => if char_eqb b rbrace then Some (c :: ws ++ [b], r') else None
        | [] => None
        end
      else None
  | [] => None
  end.

(** [(.*?)\2\s*\}]: the lazy group takes the shortest run of code units
    other than line terminators after which [closing] succeeds.  Returns the
    group, the text matched by the tail of the pattern and the rest. *)
Fixpoint lazy_value (q : char) (s : text) : option (text * text * text) :=
  match closing q s with
  | Some (tail, rest) => Some ([], tail, rest)
  | None =>
      match s with
      | c :: s' =>
          if dot c then
            match lazy_value q s' with
            | Some (v, tail, rest) => Some (c :: v, tail, rest)
            | None => None
            end
          else None
      | [] => None
      end
  end.

(** The expression [\{ID=([^,}]+),\s*TXT=(Q)(.*?)\2\s*\}], where [Q] is the
    class of the two quote characters, tried at the head of [s].
    The greedy [[^,}]+] must be followed by a comma, which is outside its
    class, and [\s*] by [T], which is not white space: giving code units back
    never helps, so each takes its longest run. *)
Definition detailedPattern (s : text) : option DetailedMatch :=
  match strip_prefix (str "{ID=") s with
  | None => None
  | Some s1 =>
      let (i, s2) := span_of id_char s1 in
      match i, s2 with
      | _ :: _, c :: s3 =>
          if char_eqb c comma then
            let (ws, s4) := span_of white_space s3 in
            match strip_prefix (str "TXT=") s4 with
            | Some (q :: s5) =>
                if quote_char q then
                  match lazy_value q s5 with
                  | Some (v, tail, rest) =>
                      Some {| m_fullMatch := str "{ID=" ++ i ++ [comma] ++ ws
                                               ++ str "TXT=" ++ [q] ++ v ++ tail;
                              m_id := i; m_quote := q; m_placeholder := v;
                              m_after := rest |}
                  | None => None
                  end
                else None
            | _ => None
            end
          else None
      | _, _ => None
      end
  end.

(** [[A-Z_]] and [[A-Z0-9_]]. *)
Definition simple_head (c : char) : bool := upper c || char_eqb c underscore.
Definition simple_tail (c : char) : bool := upper c || digit c || char_eqb c underscore.

(** [/\{[A-Z_][A-Z0-9_]*\}/] tried at the head of [s]: the match and the
    rest.  The closing brace is outside the class of the greedy star. *)
Definition simplePattern (s : text) : option (text * text) :=
  match s with
  | o :: h :: s1 =>
      if char_eqb o lbrace && simple_head h then
        let (run, s2) := span_of simple_tail s1 in
        match s2 with
        | c :: rest => if char_eqb c rbrace then Some (o :: h :: run ++ [c], rest) else None
        | [] => None
        end
      else None
  | _ => None
  end.

(** [s.replace(re, callback)] for a global regular expression [re] whose
    matches are never empty (both patterns above match at least three code
    units): the subject is scanned from the left, each match is replaced by
    what the callback returns for it, and the scan resumes after the match.
    [exec] tries the expression at the head of the remaining subject and
    [width] is the length of the match; [skip] counts the code units of the
    current match that are still to be passed over. *)
Section Replace.

Variable M : Type.
Variable exec : text -> option M.
Variable width : M -> nat.
Variable callback : M -> text.

Fixpoint replace_from (skip : nat) (s : text) : text :=
  match s with
  | [] => []
  | c :: s' =>
      match skip with
      | S k => replace_from k s'
      | O =>
          match exec s with
          | Some m => callback m ++ replace_from (pred (width m)) s'
          | None => c :: replace_from 0 s'
          end
      end
  end.

Definition replace (s : text) : text := replace_from 0 s.

End Replace.

End Regex.

Import Regex.

(* ===================================================================== *)
(** ** lib/utils.ts *)
(* ===================================================================== *)

Module Utils.

Inductive Mode := placeholders | blocks.

Definition span_open : text := str "<span class=" ++ [dquote] ++ str "mask-chip" ++ [dquote] ++ str ">".
Definition span_close : text := str "</span>".

(** The template literal that wraps [x] in a span of class mask-chip. *)
Definition chip (x : text) : text := span_open ++ x ++ span_close.

(** First pass of [renderMaskedHtml]: [text.replace(detailedPattern, ...)]. *)
Definition render_detailed (mode : Mode) (t : text) : text :=
  replace detailedPattern (fun m => length (m_fullMatch m))
    (fun m => match mode with
              | placeholders => chip (m_placeholder m)
              | blocks => chip (m_fullMatch m)
              end) t.

(** The callback of the second pass.  [result] is the variable of the
    enclosing function: while [replace] runs it still holds the text produced
    by the first pass. *)
Definition simple_callback (result : text) (m : text * text) : text :=
  let match_ := fst m in
  let beforeMatch := substring result 0 (indexOf result match_) in
  let lastSpanStart := lastIndexOf beforeMatch span_open in
  let lastSpanEnd := lastIndexOf beforeMatch span_close in
  if (lastSpanStart >? lastSpanEnd)%Z then match_ else chip match_.

Definition render_simple (result : text) : text :=
  replace simplePattern (fun m => length (fst m)) (simple_callback result) result.

Definition renderMaskedHtml (t : text) (mode : Mode) : text :=
  let result := render_detailed mode t in
  render_simple result.

Definition extractPlaceholdersFromMasked (t : text) : text :=
  replace detailedPattern (fun m => length (m_fullMatch m)) (fun m => m_placeholder m) t.

End Utils.

Import Utils.


(* ===================================================================== *)
(** ** types/index.ts and the values that travel as JSON *)
(* ===================================================================== *)

Module Types.

(** A value as [JSON.parse] delivers it or as the code builds it.  Numbers
    are only tested for truthiness, so integers stand for them. *)
#[warnings="-register-all"]
Inductive JsValue :=
| JUndefined
| JNull
| JBool (b : bool)
| JNumber (n : Z)
| JString (s : text)
| JArray (items : list JsValue)
| JObject (fields : list (string * JsValue)).

(** [ToBoolean]. *)
Definition truthy (v : JsValue) : bool :=
  match v with
  | JUndefined | JNull => false
  | JBool b => b
  | JNumber n => negb (Z.eqb n 0)
  | JString s => match s with [] => false | _ => true end
  | JArray _ | JObject _ => true
  end.

(** [a || b]. *)
Definition js_or (a b : JsValue) : JsValue := if truthy a then a else b.

Definition nullish (v : JsValue) : bool :=
  match v with JUndefined | JNull => true | _ => false end.

Fixpoint lookup (k : string) (fields : list (string * JsValue)) : JsValue :=
  match fields with
  | [] => JUndefined
  | (k', v) :: rest => if String.eqb k k' then v else lookup k rest
  end.

(** The errors the modelled code can raise. *)
Inductive JsError :=
| AppError (message : JsValue) (code : option text) (status : option Z)
| TypeError.

(** A completed call, or a settled promise: a value or a thrown error. *)
Inductive Outcome (A : Type) :=
| Ok (a : A)
| Throw (e : JsError).

Arguments Ok {A} a.
Arguments Throw {A} e.

(** [v.k] for a key other than [length]: a [TypeError] on [null] and
    [undefined], the field of an object, [undefined] on anything else. *)
Definition get (v : JsValue) (k : string) : Outcome JsValue :=
  match v with
  | JUndefined | JNull => Throw TypeError
  | JObject fields => Ok (lookup k fields)
  | _ => Ok JUndefined
  end.

(** [v?.k]. *)
Definition get_opt (v : JsValue) (k : string) : JsValue :=
  match v with
  | JObject fields => lookup k fields
  | _ => JUndefined
  end.

(** [v?.length || 0] as a number. *)
Definition length_or_0 (v : JsValue) : nat :=
  match v with
  | JArray items => length items
  | JString s => length s
  | _ => 0
  end.

Inductive Category := email | phone | social | company | product | person | generic.

Record SensitiveEntity := {
  id : text;
  name : text;
  placeholder : text;
  category : option Category
}.

Record SensitiveEntityInput := {
  input_name : text;
  input_placeholder : text
}.

Record TextProcessingInput := {
  text_ : text;
  systemPrompt : option text
}.

(** The object [maskText] returns.  Its fields hold whatever the response
    held: the annotation [Promise<MaskingResult>] is not checked when the
    code runs. *)
Record MaskingResult := {
  maskedText : JsValue;
  entitiesFound : JsValue;
  processingTime : JsValue
}.

Definition json_of_input (d : SensitiveEntityInput) : JsValue :=
  JObject [("name"%string, JString (input_name d));
           ("placeholder"%string, JString (input_placeholder d))].

Definition json_of_text_input (d : TextProcessingInput) : JsValue :=
  JObject (("text"%string, JString (text_ d))
           :: match systemPrompt d with
              | Some p => [("systemPrompt"%string, JString p)]
              | None => []
              end).

End Types.

Import Types.

(* ===================================================================== *)
(** ** The shapes of the two tokens *)
(* ===================================================================== *)

(** The claims about the grammar are stated against these two shapes, written
    after the specification: the detailed token with one space after the
    comma, as the specification's scenarios print it, and the simple token of
    the wire grammar. *)
Definition detailed_token (i : text) (q : char) (v : text) : text :=
  str "{ID=" ++ i ++ str ", TXT=" ++ [q] ++ v ++ [q] ++ str "}".

(** The wire grammar of the specification: an uppercase letter, then
    uppercase letters, digits and underscores, between braces. *)
Definition wire_simple (s : text) : Prop :=
  exists h run, s = lbrace :: h :: run ++ [rbrace]
                /\ upper h = true /\ forallb simple_tail run = true.

(** What [simplePattern] accepts: the head may also be an underscore. *)
Definition code_simple (s : text) : Prop :=
  exists h run, s = lbrace :: h :: run ++ [rbrace]
                /\ simple_head h = true /\ forallb simple_tail run = true.

Definition no_char (c : char) (s : text) : bool :=
  forallb (fun x => negb (char_eqb x c)) s.

(** The detailed tokens as claim C6 describes them: any identifier without
    comma and closing brace, either quote, any value without that quote. *)
Definition claimed_detailed (i : text) (q : char) (v : text) : Prop :=
  forallb id_char i = true /\ quote_char q = true /\ no_char q v = true.

(** The detailed token of an entity as the specification writes it: its
    identifier, and its original value between single quotes. *)
Definition blocks_form (e : SensitiveEntity) : text :=
  detailed_token (id e) squote (name e).

(* ===================================================================== *)
(** ** lib/api.ts *)
(* ===================================================================== *)

Module Api.

Inductive Method := GET | POST | PUT | DELETE.

Record Request := {
  method : Method;
  url : text;
  body : JsValue
}.

Record Response := {
  status : Z;
  data : JsValue
}.

(** What comes back for a request: a response with some status, or none (a
    network failure, the timeout of 120000 ms). *)
Inductive Reply :=
| Answered (r : Response)
| NoAnswer (message : text) (code : option text).

Record AxiosError := {
  error_message : text;
  error_code : option text;
  error_response : option Response
}.

(** The back end behind [API_BASE_URL] and the axios library in front of it.
    The back end is a state machine over requests; [refused] is the message
    and the code axios gives the error it raises for a refused status. *)
Record Net := {
  Server : Type;
  serve : Server -> Request -> Server * Reply;
  refused : Response -> text * option text
}.

(** A computation over a state [W] that ends in a value or a thrown error. *)
Definition Run (W A : Type) : Type := W -> W * Outcome A.

Definition ret {W A : Type} (a : A) : Run W A := fun w => (w, Ok a).

Definition throw {W A : Type} (e : JsError) : Run W A := fun w => (w, Throw e).

Definition bind {W A B : Type} (m : Run W A) (k : A -> Run W B) : Run W B :=
  fun w =>
    match m w with
    | (w', Ok a) => k a w'
    | (w', Throw e) => (w', Throw e)
    end.

Definition lift {W A : Type} (o : Outcome A) : Run W A := fun w => (w, o).

Notation "x <- m ;; k" := (bind m (fun x => k))
  (at level 61, m at next level, right associativity).

(** The default [validateStatus] of axios. *)
Definition validateStatus (s : Z) : bool := ((200 <=? s) && (s <? 300))%Z.

(** axios settles the request: a response with an accepted status fulfils
    it, any other response and any failure without response reject it. *)
Definition settle (net : Net) (reply : Reply) : Response + AxiosError :=
  match reply with
  | Answered r =>
      if validateStatus (status r) then inl r
      else inr {| error_message := fst (refused net r);
                  error_code := snd (refused net r);
                  error_response := Some r |}
  | NoAnswer message code =>
      inr {| error_message := message; error_code := code; error_response := None |}
  end.

(** The literal of the interceptor, Russian for: unknown error. *)
Definition unknown_error : text :=
  [1053; 1077; 1080; 1079; 1074; 1077; 1089; 1090; 1085; 1072; 1103; 32;
   1086; 1096; 1080; 1073; 1082; 1072]%N.

(** The rejection handler of [api.interceptors.response]. *)
Definition response_error (error : AxiosError) : JsError :=
  let message :=
    js_or (js_or (match error_response error with
                  | Some r => get_opt (data r) "message"
                  | None => JUndefined
                  end)
                 (JString (error_message error)))
          (JString unknown_error) in
  let status := option_map status (error_response error) in
  let code := error_code error in
  AppError message code status.

(** A request through the axios instance [api], interceptors included (the
    request interceptor and the fulfilment handler return what they get). *)
Definition api_request (net : Net) (req : Request) : Run (Server net) Response :=
  fun w =>
    let (w', reply) := serve net w req in
    match settle net reply with
    | inl response => (w', Ok response)
    | inr error => (w', Throw (response_error error))
    end.

Definition api_get (net : Net) (u : text) : Run (Server net) Response :=
  api_request net {| method := GET; url := u; body := JUndefined |}.
Definition api_post (net : Net) (u : text) (d : JsValue) : Run (Server net) Response :=
  api_request net {| method := POST; url := u; body := d |}.
Definition api_put (net : Net) (u : text) (d : JsValue) : Run (Server net) Response :=
  api_request net {| method := PUT; url := u; body := d |}.
Definition api_delete (net : Net) (u : text) : Run (Server net) Response :=
  api_request net {| method := DELETE; url := u; body := JUndefined |}.

Definition handleApiResponse (response : Response) : Outcome JsValue :=
  match get_opt (data response) "success" with
  | JBool false =>
      match get (data response) "error" with
      | Ok e => Throw (AppError (js_or e (JString (str "API error"))) None None)
      | Throw e => Throw e
      end
  | _ => Ok (data response)
  end.

Section ApiClient.

Variable net : Net.

Definition Call (A : Type) : Type := Run (Server net) A.

Definition maskText (d : TextProcessingInput) : Call MaskingResult :=
  response <- api_post net (str "/mask-text") (json_of_text_input d) ;;
  apiResult <- lift (handleApiResponse response) ;;
  masked_text <- lift (get apiResult "masked_text") ;;
  entities_found <- lift (get apiResult "entities_found") ;;
  processing_time <- lift (get apiResult "processing_time") ;;
  ret {| maskedText := masked_text;
         entitiesFound := js_or entities_found (JArray []);
         processingTime := processing_time |}.

Definition demaskText (maskedText : text) : Call JsValue :=
  response <- api_post net (str "/demask-text")
                (JObject [("maskedText"%string, JString maskedText)]) ;;
  lift (handleApiResponse response).

Definition processWithOpenRouter (text systemPrompt : Js.text) : Call JsValue :=
  response <- api_post net (str "/process-openrouter")
                (JObject [("text"%string, JString text);
                          ("systemPrompt"%string, JString systemPrompt)]) ;;
  result <- lift (handleApiResponse response) ;;
  match result with
  | JString _ => ret result
  | _ => d <- lift (get result "data") ;; ret (js_or d (JString []))
  end.

Definition getSensitiveEntities : Call JsValue :=
  response <- api_get net (str "/sensitive-entities") ;;
  lift (handleApiResponse response).

Definition addSensitiveEntity (d : SensitiveEntityInput) : Call JsValue :=
  response <- api_post net (str "/sensitive-entities") (json_of_input d) ;;
  lift (handleApiResponse response).

(** The partial input of an update travels as the object the form built. *)
Definition updateSensitiveEntity (id : text) (d : JsValue) : Call JsValue :=
  response <- api_put net (str "/sensitive-entities/" ++ id) d ;;
  lift (handleApiResponse response).

Definition deleteSensitiveEntity (id : text) : Call JsValue :=
  response <- api_delete net (str "/sensitive-entities/" ++ id) ;;
  lift (handleApiResponse response).

Definition getSystemPrompt : Call JsValue :=
  response <- api_get net (str "/system-prompt") ;;
  result <- lift (handleApiResponse response) ;;
  d <- lift (get result "data") ;;
  ret (js_or d (JString [])).

Definition updateSystemPrompt (prompt : text) : Call JsValue :=
  response <- api_put net (str "/system-prompt")
                (JObject [("prompt"%string, JString prompt)]) ;;
  result <- lift (handleApiResponse response) ;;
  d <- lift (get result "data") ;;
  ret (js_or d (JString [])).

Definition healthCheck : Call JsValue :=
  response <- api_get net (str "/health") ;;
  lift (handleApiResponse response).

(** The operations of [apiClient] with their arguments. *)
Inductive Operation :=
| MaskText (d : TextProcessingInput)
| DemaskText (maskedText : text)
| ProcessWithOpenRouter (text systemPrompt : Js.text)
| GetSensitiveEntities
| AddSensitiveEntity (d : SensitiveEntityInput)
| UpdateSensitiveEntity (id : text) (d : JsValue)
| DeleteSensitiveEntity (id : text)
| GetSystemPrompt
| UpdateSystemPrompt (prompt : text)
| HealthCheck.

Definition result_of (op : Operation) : Type :=
  match op with
  | MaskText _ => MaskingResult
  | _ => JsValue
  end.

Definition perform (op : Operation) : Call (result_of op) :=
  match op with
  | MaskText d => maskText d
  | DemaskText t => demaskText t
  | ProcessWithOpenRouter t p => processWithOpenRouter t p
  | GetSensitiveEntities => getSensitiveEntities
  | AddSensitiveEntity d => addSensitiveEntity d
  | UpdateSensitiveEntity i d => updateSensitiveEntity i d
  | DeleteSensitiveEntity i => deleteSensitiveEntity i
  | GetSystemPrompt => getSystemPrompt
  | UpdateSystemPrompt p => updateSystemPrompt p
  | HealthCheck => healthCheck
  end.

(** The one request an operation sends. *)
Definition request_of (op : Operation) : Request :=
  match op with
  | MaskText d =>
      {| method := POST; url := str "/mask-text"; body := json_of_text_input d |}
  | DemaskText t =>
      {| method := POST; url := str "/demask-text";
         body := JObject [("maskedText"%string, JString t)] |}
  | ProcessWithOpenRouter t p =>
      {| method := POST; url := str "/process-openrouter";
         body := JObject [("text"%string, JString t);
                          ("systemPrompt"%string, JString p)] |}
  | GetSensitiveEntities =>
      {| method := GET; url := str "/sensitive-entities"; body := JUndefined |}
  | AddSensitiveEntity d =>
      {| method := POST; url := str "/sensitive-entities"; body := json_of_input d |}
  | UpdateSensitiveEntity i d =>
      {| method := PUT; url := str "/sensitive-entities/" ++ i; body := d |}
  | DeleteSensitiveEntity i =>
      {| method := DELETE; url := str "/sensitive-entities/" ++ i; body := JUndefined |}
  | GetSystemPrompt =>
      {| method := GET; url := str "/system-prompt"; body := JUndefined |}
  | UpdateSystemPrompt p =>
      {| method := PUT; url := str "/system-prompt";
         body := JObject [("prompt"%string, JString p)] |}
  | HealthCheck =>
      {| method := GET; url := str "/health"; body := JUndefined |}
  end.

End ApiClient.

End Api.

Import Api.

(* ===================================================================== *)
(** ** hooks/useToast.ts and hooks/useApi.ts *)
(* ===================================================================== *)

Module Hooks.

Inductive Variant := default | destructive | success | warning.

(** The titles of the toasts, by the call that raises them; the Russian
    literals of the source are not spelled out. *)
Inductive Title :=
| MaskingError | DemaskingError | ProcessingError
| EntityAdded | EntityAddError
| EntityUpdated | EntityUpdateError
| EntityDeleted | EntityDeleteError
| PromptUpdated | PromptUpdateError
| NothingToMask | DataMasked.

Record Toast := {
  title : Title;
  description : JsValue;
  variant : Variant
}.

Definition QueryKey := list string.

(** [queryKeys]. *)
Definition sensitiveEntities : QueryKey := ["sensitive-entities"%string].
Definition systemPromptKey : QueryKey := ["system-prompt"%string].
Definition health : QueryKey := ["health"%string].

(** The state react-query keeps for one query. *)
Record Query := {
  query_data : option JsValue;
  dataUpdatedAt : N;
  isInvalidated : bool
}.

(** What the hooks act on: the back end, the clock, the query cache of the
    [QueryClient] and the toasts raised so far. *)
Record World (net : Net) := {
  server : Server net;
  clock : N;
  cache : list (QueryKey * Query);
  toasts : list Toast
}.

Arguments server {net} w.
Arguments clock {net} w.
Arguments cache {net} w.
Arguments toasts {net} w.

Section Client.

Variable net : Net.

Definition Hook (A : Type) : Type := Run (World net) A.

(** An [apiClient] call made from a hook. *)
Definition api {A : Type} (call : Call net A) : Hook A :=
  fun w =>
    let (s', o) := call (server w) in
    ({| server := s'; clock := clock w; cache := cache w; toasts := toasts w |}, o).

Definition toast (t : Toast) : Hook unit :=
  fun w =>
    ({| server := server w; clock := clock w; cache := cache w;
        toasts := toasts w ++ [t] |}, Ok tt).

Fixpoint key_prefix (k k' : QueryKey) : bool :=
  match k, k' with
  | [], _ => true
  | a :: k1, b :: k1' => String.eqb a b && key_prefix k1 k1'
  | _ :: _, [] => false
  end.

Definition invalidate (q : Query) : Query :=
  {| query_data := query_data q; dataUpdatedAt := dataUpdatedAt q; isInvalidated := true |}.

(** [queryClient.invalidateQueries(key)]: every query whose key starts with
    [key] is marked invalidated.  The refetch it schedules for the mounted
    observers is the fetch of the next [useQuery] below. *)
Definition invalidateQueries (k : QueryKey) : Hook unit :=
  fun w =>
    ({| server := server w; clock := clock w;
        cache := map (fun e => if key_prefix k (fst e) then (fst e, invalidate (snd e)) else e)
                     (cache w);
        toasts := toasts w |}, Ok tt).

Fixpoint find_query (k : QueryKey) (c : list (QueryKey * Query)) : option Query :=
  match c with
  | [] => None
  | (k', q) :: rest =>
      if list_eq_dec string_dec k k' then Some q else find_query k rest
  end.

Fixpoint store_query (k : QueryKey) (q : Query) (c : list (QueryKey * Query))
  : list (QueryKey * Query) :=
  match c with
  | [] => [(k, q)]
  | (k', q') :: rest =>
      if list_eq_dec string_dec k k' then (k, q) :: rest
      else (k', q') :: store_query k q rest
  end.

(** [query.isStaleByTime(staleTime)]: invalidated, without data, or older
    than [staleTime]. *)
Definition isStale (staleTime now : N) (q : Query) : bool :=
  isInvalidated q
  || match query_data q with None => true | Some _ => false end
  || (dataUpdatedAt q + staleTime <=? now)%N.

(** [useQuery(key, queryFn, { staleTime })], once its fetch has settled:
    fresh cached data is returned as it is; otherwise [queryFn] is run and
    its result is stored. *)
Definition useQuery (k : QueryKey) (queryFn : Hook JsValue) (staleTime : N) : Hook JsValue :=
  fun w =>
    match find_query k (cache w) with
    | Some q =>
        if isStale staleTime (clock w) q then
          match queryFn w with
          | (w', Ok d) =>
              ({| server := server w'; clock := clock w';
                  cache := store_query k {| query_data := Some d;
                                            dataUpdatedAt := clock w';
                                            isInvalidated := false |} (cache w');
                  toasts := toasts w' |}, Ok d)
          | (w', Throw e) => (w', Throw e)
          end
        else (w, match query_data q with Some d => Ok d | None => Ok JUndefined end)
    | None =>
        match queryFn w with
        | (w', Ok d) =>
            ({| server := server w'; clock := clock w';
                cache := store_query k {| query_data := Some d;
                                          dataUpdatedAt := clock w';
                                          isInvalidated := false |} (cache w');
                toasts := toasts w' |}, Ok d)
        | (w', Throw e) => (w', Throw e)
        end
    end.

(** [useMutation(mutationFn, { onSuccess, onError }).mutateAsync(v)]: an
    error thrown by [onSuccess] rejects the mutation like one thrown by
    [mutationFn], and [onError] runs in both cases. *)
Definition mutateAsync {V A : Type} (mutationFn : V -> Hook A)
    (onSuccess : A -> Hook unit) (onError : JsError -> Hook unit) (v : V) : Hook A :=
  fun w =>
    match mutationFn v w with
    | (w1, Ok a) =>
        match onSuccess a w1 with
        | (w2, Ok _) => (w2, Ok a)
        | (w2, Throw e) => (fst (onError e w2), Throw e)
        end
    | (w1, Throw e) => (fst (onError e w1), Throw e)
    end.

(** [error.message]. *)
Definition message_of (e : JsError) : JsValue :=
  match e with
  | AppError message _ _ => message
  | TypeError => JString (str "TypeError")
  end.

Definition error_toast (t : Title) (e : JsError) : Hook unit :=
  toast {| title := t; description := message_of e; variant := destructive |}.

Definition useSensitiveEntities : Hook JsValue :=
  useQuery sensitiveEntities (api (getSensitiveEntities net)) (5 * 60 * 1000)%N.

Definition useAddSensitiveEntity : SensitiveEntityInput -> Hook JsValue :=
  mutateAsync (fun d => api (addSensitiveEntity net d))
    (fun newEntity =>
       _ <- invalidateQueries sensitiveEntities ;;
       n <- lift (get newEntity "name") ;;
       toast {| title := EntityAdded; description := n; variant := default |})
    (error_toast EntityAddError).

Definition useUpdateSensitiveEntity : text * JsValue -> Hook JsValue :=
  mutateAsync (fun v => api (updateSensitiveEntity net (fst v) (snd v)))
    (fun updatedEntity =>
       _ <- invalidateQueries sensitiveEntities ;;
       n <- lift (get updatedEntity "name") ;;
       toast {| title := EntityUpdated; description := n; variant := default |})
    (error_toast EntityUpdateError).

Definition useDeleteSensitiveEntity : text -> Hook JsValue :=
  mutateAsync (fun id => api (deleteSensitiveEntity net id))
    (fun _ =>
       _ <- invalidateQueries sensitiveEntities ;;
       toast {| title := EntityDeleted; description := JUndefined; variant := default |})
    (error_toast EntityDeleteError).

(** The three mutations of the entity dictionary. *)
Inductive DictionaryMutation :=
| Add (d : SensitiveEntityInput)
| Update (id : text) (d : JsValue)
| Delete (id : text).

(** The [apiClient] call behind each of them. *)
Definition mutationFn (m : DictionaryMutation) : Call net JsValue :=
  match m with
  | Add d => addSensitiveEntity net d
  | Update i d => updateSensitiveEntity net i d
  | Delete i => deleteSensitiveEntity net i
  end.

Definition mutate (m : DictionaryMutation) : Hook JsValue :=
  match m with
  | Add d => useAddSensitiveEntity d
  | Update i d => useUpdateSensitiveEntity (i, d)
  | Delete i => useDeleteSensitiveEntity i
  end.

(** The same world at another time. *)
Definition at_time (now : N) (w : World net) : World net :=
  {| server := server w; clock := now; cache := cache w; toasts := toasts w |}.

End Client.

End Hooks.

Import Hooks.

(* ===================================================================== *)
(** ** components/SafeDialogApp.tsx *)
(* ===================================================================== *)

Module App.

(** The fields of [AppState] that [handleMaskText] reads or writes.  The
    masked texts and the error hold what the server sent. *)
Record AppState := {
  queryText : text;
  contextText : text;
  maskedQueryText : JsValue;
  maskedContextText : JsValue;
  maskingPrompt : text;
  error : option JsValue
}.

(** A promise once settled: when, and how. *)
Record Settled (A : Type) := {
  settledAt : nat;
  outcome : Outcome A
}.

Arguments settledAt {A} s.
Arguments outcome {A} s.

(** The earliest rejection among settled promises; of two that reject at the
    same time, the one earlier in the list. *)
Fixpoint first_rejection {A : Type} (ps : list (Settled A)) : option (nat * JsError) :=
  match ps with
  | [] => None
  | p :: rest =>
      match outcome p, first_rejection rest with
      | Throw e, Some (t, e') => if settledAt p <=? t then Some (settledAt p, e) else Some (t, e')
      | Throw e, None => Some (settledAt p, e)
      | Ok _, r => r
      end
  end.

Fixpoint values {A : Type} (ps : list (Settled A)) : list A :=
  match ps with
  | [] => []
  | p :: rest =>
      match outcome p with
      | Ok a => a :: values rest
      | Throw _ => values rest
      end
  end.

(** [await Promise.all(promises)]: the values in the order of the promises
    when all fulfil, the reason of the first rejection otherwise. *)
Definition Promise_all {A : Type} (ps : list (Settled A)) : Outcome (list A) :=
  match first_rejection ps with
  | Some (_, e) => Throw e
  | None => Ok (values ps)
  end.

Definition then_ {A B : Type} (f : A -> B) (p : Settled A) : Settled B :=
  {| settledAt := settledAt p;
     outcome := match outcome p with Ok a => Ok (f a) | Throw e => Throw e end |}.

Inductive Field := query | context.

(** [results.forEach(...)] inside the state update. *)
Fixpoint apply_results (results : list (Field * MaskingResult)) (newState : AppState) : AppState :=
  match results with
  | [] => newState
  | (query, r) :: rest =>
      apply_results rest
        {| queryText := queryText newState; contextText := contextText newState;
           maskedQueryText := maskedText r;
           maskedContextText := maskedContextText newState;
           maskingPrompt := maskingPrompt newState; error := error newState |}
  | (context, r) :: rest =>
      apply_results rest
        {| queryText := queryText newState; contextText := contextText newState;
           maskedQueryText := maskedQueryText newState;
           maskedContextText := maskedText r;
           maskingPrompt := maskingPrompt newState; error := error newState |}
  end.

Definition set_error (e : option JsValue) (prev : AppState) : AppState :=
  {| queryText := queryText prev; contextText := contextText prev;
     maskedQueryText := maskedQueryText prev;
     maskedContextText := maskedContextText prev;
     maskingPrompt := maskingPrompt prev; error := e |}.

(** [handleMaskText].  [mutateAsync n d] is the promise that the [n]-th call
    of [maskTextMutation.mutateAsync], made with [d], returns.  The result
    is the state after the handler and the toasts it raised. *)
Definition handleMaskText
    (mutateAsync : nat -> TextProcessingInput -> Settled MaskingResult)
    (appState : AppState) : AppState * list Toast :=
  let hasQueryText := trim_truthy (queryText appState) in
  let hasContextText := trim_truthy (contextText appState) in
  if negb hasQueryText && negb hasContextText then
    (appState, [{| title := NothingToMask; description := JUndefined;
                   variant := destructive |}])
  else
    let input t := {| text_ := t; systemPrompt := Some (maskingPrompt appState) |} in
    let promises :=
      (if hasQueryText
       then [then_ (fun r => (query, r)) (mutateAsync 0 (input (queryText appState)))]
       else [])
      ++ (if hasContextText
          then [then_ (fun r => (context, r))
                  (mutateAsync (if hasQueryText then 1 else 0)
                     (input (contextText appState)))]
          else []) in
    match Promise_all promises with
    | Ok results =>
        let totalEntities :=
          fold_left (fun sum r => sum + length_or_0 (entitiesFound (snd r))) results 0 in
        (apply_results results (set_error None appState),
         [{| title := DataMasked; description := JNumber (Z.of_nat totalEntities);
             variant := success |}])
    | Throw e => (set_error (Some (message_of e)) appState, [])
    end.

End App.

Import App.

(* ===================================================================== *)
(** ** Two small back ends, for concrete runs *)
(* ===================================================================== *)

Module Backends.

(** A back end that answers every request with the data it holds. *)
Definition fixed : Net :=
  {| Server := JsValue;
     serve := fun w _ => (w, Answered {| status := 200; data := w |});
     refused := fun _ => (str "Request failed", None) |}.

(** An entity dictionary: it lists its entities, appends what is posted to
    it, and refuses everything else with status 404. *)
Definition dictionary : Net :=
  {| Server := list JsValue;
     serve := fun w req =>
       if text_eqb (url req) (str "/sensitive-entities") then
         match method req with
         | GET => (w, Answered {| status := 200; data := JArray w |})
         | POST => (w ++ [body req], Answered {| status := 201; data := body req |})
         | _ => (w, Answered {| status := 405; data := JNull |})
         end
       else (w, Answered {| status := 404;
                            data := JObject [("message"%string, JString (str "Not Found"))] |});
     refused := fun r => (str "Request failed", Some (str "ERR_BAD_REQUEST")) |}.

(** An input of the add form, and a world whose cache holds a fresh, empty
    list of entities. *)
Definition ivan : SensitiveEntityInput :=
  {| input_name := str "Ivan"; input_placeholder := str "PERSON_1" |}.

Definition fresh_world : World dictionary :=
  {| server := ([] : Server dictionary); clock := 0;
     cache := [(sensitiveEntities,
                {| query_data := Some (JArray []); dataUpdatedAt := 0;
                   isInvalidated := false |})];
     toasts := [] |}.

(** A state with both fields filled, and two calls of [mutateAsync] of
    which the first fulfils and the second rejects. *)
Definition two_fields : AppState :=
  {| queryText := str "Hello Ivan"; contextText := str "Bye Ivan";
     maskedQueryText := JString []; maskedContextText := JString [];
     maskingPrompt := []; error := None |}.

Definition masked_hello : MaskingResult :=
  {| maskedText := JString (str "Hello {ID=1, TXT='Ivan'}");
     entitiesFound := JArray [JObject [("id"%string, JString (str "1"))]];
     processingTime := JUndefined |}.

Definition masked_bye : MaskingResult :=
  {| maskedText := JString (str "Bye {ID=1, TXT='Ivan'}");
     entitiesFound := JArray [JObject [("id"%string, JString (str "1"))]];
     processingTime := JUndefined |}.

Definition second_call_fails (n : nat) (_ : TextProcessingInput) : Settled MaskingResult :=
  match n with
  | 0 => {| settledAt := 1; outcome := Ok masked_hello |}
  | _ => {| settledAt := 2;
            outcome := Throw (AppError (JString (str "detector unreachable")) None
                                       (Some 502%Z)) |}
  end.

Definition both_calls_succeed (n : nat) (_ : TextProcessingInput) : Settled MaskingResult :=
  match n with
  | 0 => {| settledAt := 2; outcome := Ok masked_hello |}
  | _ => {| settledAt := 1; outcome := Ok masked_bye |}
  end.

End Backends.

(* ===================================================================== *)
(** ** The masking and demasking engine *)
(* ===================================================================== *)

(** The engine runs on the server ([sensitive_entities.py] behind
    [api_server.py]); the sources at hand only call it, through [maskText]
    and [demaskText].  It is modelled here from sections 4.3 to 4.5 of the
    specification.  The tokens are read with the two expressions of
    [lib/utils.ts], the one reader of the grammar the repository holds. *)

Module Engine.

(** Modelled from the spec: a span reported by the external detector (the
    detector is not among the sources): where it starts in the original
    text, the substring it covers, and an optional category. *)
Record Span := {
  start : nat;
  value : text;
  span_category : option Category
}.

(** Modelled from the spec: the [MaskingResult] of the engine (the engine is
    not among the sources), without the optional duration. *)
Record MaskingResult := {
  maskedText : text;
  entitiesFound : list SensitiveEntity
}.

(** Modelled from the spec: what the detector returns (the detector is not
    among the sources): ready-made masked text with its entities, or raw
    spans. *)
Inductive Detection :=
| ReadyMade (r : MaskingResult)
| RawSpans (spans : list Span).

(** Modelled from the spec: the fresh identifiers of the encoder (not among
    the sources) are the numerals 1, 2, ... of the scenarios. *)
Definition decimal (n : nat) : text := str (NilEmpty.string_of_uint (Nat.to_uint n)).

(** Modelled from the spec: the end of a span, exclusive. *)
Definition stop (s : Span) : nat := start s + length (value s).

(** Modelled from the spec: the encoder (not among the sources) drops a
    span whose substring is empty. *)
Definition nonempty (s : Span) : bool :=
  match value s with [] => false | _ :: _ => true end.

(** Modelled from the spec: the encoder (not among the sources) takes the
    spans in ascending order of their start; the order of spans that start
    together is kept. *)
Fixpoint insert (s : Span) (l : list Span) : list Span :=
  match l with
  | [] => [s]
  | a :: l' => if start s <=? start a then s :: l else a :: insert s l'
  end.

(** Modelled from the spec: see [insert]. *)
Fixpoint sort_by_start (l : list Span) : list Span :=
  match l with
  | [] => []
  | s :: l' => insert s (sort_by_start l')
  end.

(** Modelled from the spec: the overlap rule of the encoder (not among the
    sources).  Of two spans that share characters the longer wins, the
    earlier one if they are as long; [cur] is the span that has won so far. *)
Fixpoint resolve_from (cur : Span) (l : list Span) : list Span :=
  match l with
  | [] => [cur]
  | s :: l' =>
      if start s <? stop cur
      then resolve_from (if length (value cur) <? length (value s) then s else cur) l'
      else cur :: resolve_from s l'
  end.

(** Modelled from the spec: see [resolve_from]. *)
Definition resolve_overlaps (l : list Span) : list Span :=
  match l with
  | [] => []
  | s :: l' => resolve_from s l'
  end.

(** Modelled from the spec: the exact match on the name that the encoder
    (not among the sources) uses. *)
Definition named (v : text) (e : SensitiveEntity) : bool := text_eqb (name e) v.

Section Encoder.

(** The label given to a freshly detected entity, which the specification
    leaves open. *)
Variable label : option Category -> nat -> text.

(** The Entity Dictionary Store, read only. *)
Variable dictionary : list SensitiveEntity.

(** Modelled from the spec: steps 1 and 2 of the encoder (not among the
    sources).  A value met before in this call keeps its entity; a value
    the dictionary names takes the identifier and the label of the
    dictionary; any other value gets the next fresh identifier.  [known]
    holds the entities of this call in the order of their first occurrence. *)
Fixpoint assign (known : list SensitiveEntity) (next : nat) (spans : list Span)
  : list (Span * SensitiveEntity) :=
  match spans with
  | [] => []
  | s :: rest =>
      match find (named (value s)) known with
      | Some e => (s, e) :: assign known next rest
      | None =>
          match find (named (value s)) dictionary with
          | Some d =>
              let e := {| id := id d; name := value s;
                          placeholder := placeholder d; category := category d |} in
              (s, e) :: assign (known ++ [e]) next rest
          | None =>
              let e := {| id := decimal next; name := value s;
                          placeholder := label (span_category s) next;
                          category := span_category s |} in
              (s, e) :: assign (known ++ [e]) (S next) rest
          end
      end
  end.

(** Modelled from the spec: step 4 of the encoder (not among the sources).
    The text is built from the left, with offsets into the original text;
    [pos] is the offset reached. *)
Fixpoint build (t : text) (pos : nat) (tokens : list (Span * SensitiveEntity)) : text :=
  match tokens with
  | [] => skipn pos t
  | (s, e) :: rest =>
      firstn (start s - pos) (skipn pos t) ++ blocks_form e ++ build t (stop s) rest
  end.

(** Modelled from the spec: step 5 of the encoder (not among the sources):
    the entities without repeated identifiers, first occurrence first. *)
Fixpoint dedup_by_id (seen : list text) (l : list SensitiveEntity) : list SensitiveEntity :=
  match l with
  | [] => []
  | e :: l' =>
      if existsb (text_eqb (id e)) seen then dedup_by_id seen l'
      else e :: dedup_by_id (id e :: seen) l'
  end.

(** Modelled from the spec: the Placeholder Encoder of section 4.3 (not
    among the sources). *)
Definition encode (t : text) (spans : list Span) : MaskingResult :=
  let tokens := assign [] 1 (resolve_overlaps (sort_by_start (filter nonempty spans))) in
  {| maskedText := build t 0 tokens;
     entitiesFound := dedup_by_id [] (map snd tokens) |}.

(** Modelled from the spec: [mask] of the Masking Orchestrator (not among
    the sources): ready-made masked text is passed through, raw spans go to
    the encoder. *)
Definition mask (t : text) (detected : Detection) : MaskingResult :=
  match detected with
  | ReadyMade r => r
  | RawSpans spans => encode t spans
  end.

End Encoder.

(** Modelled from the spec: the session mapping of the engine (not among
    the sources): an index by identifier and an index by name. *)
Record Mapping := {
  by_id : list (text * SensitiveEntity);
  by_name : list (text * SensitiveEntity)
}.

(** Modelled from the spec: the mapping built from the entities found. *)
Definition mapping_of (entities : list SensitiveEntity) : Mapping :=
  {| by_id := map (fun e => (id e, e)) entities;
     by_name := map (fun e => (name e, e)) entities |}.

(** Modelled from the spec: a lookup in an index of the mapping. *)
Fixpoint assoc (k : text) (l : list (text * SensitiveEntity)) : option SensitiveEntity :=
  match l with
  | [] => None
  | (k', e) :: l' => if text_eqb k k' then Some e else assoc k l'
  end.

(** Modelled from the spec: the lookup of the text of a simple token as a
    literal key of the mapping (the Demasking Engine is not among the
    sources): in the index by identifier, then in the index by name. *)
Definition lookup_key (m : Mapping) (k : text) : option SensitiveEntity :=
  match assoc k (by_id m) with
  | Some e => Some e
  | None => assoc k (by_name m)
  end.

(** Modelled from the spec: the two kinds of token of [parseTokens] (not
    among the sources). *)
Inductive Token :=
| Detailed (m : DetailedMatch)
| Simple (m : text).

(** Modelled from the spec: the token at the head of the text, for the
    parser of the Demasking Engine (not among the sources): a detailed one
    if there is one, a simple one otherwise. *)
Definition token_at (s : text) : option Token :=
  match detailedPattern s with
  | Some m => Some (Detailed m)
  | None =>
      match simplePattern s with
      | Some (m, _) => Some (Simple m)
      | None => None
      end
  end.

(** Modelled from the spec: the length of the span of a token. *)
Definition token_width (k : Token) : nat :=
  match k with
  | Detailed m => length (m_fullMatch m)
  | Simple m => length m
  end.

(** Modelled from the spec: the text between the braces of a simple token. *)
Definition bracket_text (m : text) : text := removelast (tl m).

(** Modelled from the spec: the substitution of the Demasking Engine (not
    among the sources).  A detailed token becomes the name of the entity of
    its identifier, or the value it embeds when the mapping does not hold
    the identifier; a simple token becomes the name of the entity of its
    key, or stays as it is. *)
Definition substitute (mapping : Mapping) (k : Token) : text :=
  match k with
  | Detailed m =>
      match assoc (m_id m) (by_id mapping) with
      | Some e => name e
      | None => m_placeholder m
      end
  | Simple m =>
      match lookup_key mapping (bracket_text m) with
      | Some e => name e
      | None => m
      end
  end.

(** Modelled from the spec: [demask] of section 4.5 (not among the
    sources): one pass from the left, in which substituted text is not
    scanned again. *)
Definition demask (t : text) (mapping : Mapping) : text :=
  replace token_at token_width (substitute mapping) t.

(** *** Properties the statements about the engine use *)

(** Spans in ascending order of their start. *)
Fixpoint sorted (l : list Span) : Prop :=
  match l with
  | [] => True
  | a :: l' => (forall b, In b l' -> start a <= start b) /\ sorted l'
  end.

(** Spans in ascending order that do not share characters, from [pos] on. *)
Fixpoint chain (pos : nat) (l : list Span) : Prop :=
  match l with
  | [] => True
  | s :: l' => pos <= start s /\ chain (stop s) l'
  end.

(** An identifier the grammar can carry: not empty, no comma, no closing
    brace. *)
Definition well_formed_id (i : text) : Prop := i <> [] /\ forallb id_char i = true.

(** Equal identifiers name equal values. *)
Definition functional (l : list SensitiveEntity) : Prop :=
  forall e1 e2, In e1 l -> In e2 l -> id e1 = id e2 -> name e1 = name e2.

(** The dictionary the round trip needs: well-formed identifiers, one name
    per identifier, and no identifier that is a decimal numeral, which a
    fresh identifier could repeat. *)
Definition dictionary_ok (dictionary : list SensitiveEntity) : Prop :=
  (forall d, In d dictionary -> well_formed_id (id d))
  /\ functional dictionary
  /\ (forall d n, In d dictionary -> id d <> decimal n).

(** Where an entity known so far comes from: the dictionary, or a fresh
    identifier below the counter. *)
Definition origin (dictionary : list SensitiveEntity) (next : nat) (e : SensitiveEntity) : Prop :=
  (exists d, In d dictionary /\ id e = id d /\ name e = name d)
  \/ (exists n, n < next /\ id e = decimal n).

(** The value of a span is the substring of the text at its start. *)
Definition span_ok (t : text) (s : Span) : Prop :=
  firstn (length (value s)) (skipn (start s) t) = value s.

(** What the round trip needs of a token: the span is the substring at its
    offset, the entity carries the value of the span, the identifier is well
    formed and resolves, through the mapping, to an entity of that value, and
    the value holds neither a single quote nor a line terminator. *)
Definition token_ok (t : text) (mapping : Mapping) (k : Span * SensitiveEntity) : Prop :=
  span_ok t (fst k)
  /\ name (snd k) = value (fst k)
  /\ well_formed_id (id (snd k))
  /\ no_char squote (value (fst k)) = true
  /\ forallb dot (value (fst k)) = true
  /\ exists e', assoc (id (snd k)) (by_id mapping) = Some e' /\ name e' = name (snd k).

End Engine.

(* ===================================================================== *)
(** ** lib/utils.ts: the other helpers *)
(* ===================================================================== *)

(** Regular expressions without groups, tested against a whole text: what
    [re.test(s)] computes for an expression anchored with [^] and [$]. *)
Module Re.

Inductive re :=
| Void
| Eps
| Class (p : char -> bool)
| Seq (a b : re)
| Alt (a b : re)
| Star (a : re).

(** [a+]. *)
Definition Plus (a : re) : re := Seq a (Star a).

Fixpoint nullable (r : re) : bool :=
  match r with
  | Void => false
  | Eps => true
  | Class _ => false
  | Seq a b => nullable a && nullable b
  | Alt a b => nullable a || nullable b
  | Star _ => true
  end.

(** The expression for what may follow the code unit [c]. *)
Fixpoint deriv (c : char) (r : re) : re :=
  match r with
  | Void => Void
  | Eps => Void
  | Class p => if p c then Eps else Void
  | Seq a b =>
      if nullable a then Alt (Seq (deriv c a) b) (deriv c b)
      else Seq (deriv c a) b
  | Alt a b => Alt (deriv c a) (deriv c b)
  | Star a => Seq (deriv c a) (Star a)
  end.

Fixpoint test (r : re) (s : text) : bool :=
  match s with
  | [] => nullable r
  | c :: s' => test (deriv c r) s'
  end.

(** The texts an expression denotes. *)
Inductive lang : re -> text -> Prop :=
| lang_eps : lang Eps []
| lang_class p c : p c = true -> lang (Class p) [c]
| lang_seq a b s1 s2 : lang a s1 -> lang b s2 -> lang (Seq a b) (s1 ++ s2)
| lang_alt_l a b s : lang a s -> lang (Alt a b) s
| lang_alt_r a b s : lang b s -> lang (Alt a b) s
| lang_star_nil a : lang (Star a) []
| lang_star_cons a s1 s2 : lang a s1 -> lang (Star a) s2 -> lang (Star a) (s1 ++ s2).

End Re.

Module UtilsMore.

Definition truncateText (t : text) (maxLength : Z) : text :=
  if (Z.of_nat (length t) <=? maxLength)%Z then t
  else substring t 0 maxLength ++ str "...".

(** The class [[^\s@]] of [emailRegex]. *)
Definition email_char (c : char) : bool := negb (white_space c || char_eqb c 64%N).

(** [emailRegex]: [^[^\s@]+@[^\s@]+\.[^\s@]+$]. *)
Definition emailRegex : Re.re :=
  Re.Seq (Re.Plus (Re.Class email_char))
    (Re.Seq (Re.Class (fun c => char_eqb c 64%N))
       (Re.Seq (Re.Plus (Re.Class email_char))
          (Re.Seq (Re.Class (fun c => char_eqb c 46%N))
             (Re.Plus (Re.Class email_char))))).

Definition isValidEmail (email : text) : bool := Re.test emailRegex email.

(** [\D] at the head of the subject. *)
Definition nonDigit (s : text) : option char :=
  match s with
  | c :: _ => if digit c then None else Some c
  | [] => None
  end.

(** [isValidPhone]; its [phoneRegex] is declared and never used. *)
Definition isValidPhone (phone : text) : bool :=
  let digitsOnly := replace nonDigit (fun _ => 1) (fun _ => []) phone in
  (9 <=? length digitsOnly) && (length digitsOnly <=? 15).

(** *** [debounce] and [throttle]

    A timer is known by the identifier [setTimeout] returned for it; the
    browser gives positive identifiers, so the test [if (timeout)] holds
    exactly when a timer was set before.  What happens to the returned
    function is a trace of events: a call with its arguments, or the host
    firing a timer that is still pending. *)

Inductive Event (A : Type) :=
| Called (args : A)
| Fired (timer : nat).

Arguments Called {A} args.
Arguments Fired {A} timer.

Record Debounced (A : Type) := {
  timeout : option nat;
  pending : list (nat * A);
  nextTimer : nat;
  invoked : list A
}.

Arguments timeout {A} d.
Arguments pending {A} d.
Arguments nextTimer {A} d.
Arguments invoked {A} d.

(** [debounce(func, wait)] before any call; timers are numbered from 1. *)
Definition debounce (A : Type) : Debounced A :=
  {| timeout := None; pending := []; nextTimer := 1; invoked := [] |}.

Definition clearTimeout {A : Type} (timer : nat) (p : list (nat * A)) : list (nat * A) :=
  filter (fun e => negb (fst e =? timer)) p.

Definition timer_args {A : Type} (timer : nat) (p : list (nat * A)) : option A :=
  option_map snd (find (fun e => fst e =? timer) p).

Definition debounce_step {A : Type} (d : Debounced A) (e : Event A) : Debounced A :=
  match e with
  | Called args =>
      let cleared := match timeout d with
                     | Some t => clearTimeout t (pending d)
                     | None => pending d
                     end in
      {| timeout := Some (nextTimer d);
         pending := cleared ++ [(nextTimer d, args)];
         nextTimer := S (nextTimer d);
         invoked := invoked d |}
  | Fired t =>
      match timer_args t (pending d) with
      | Some args =>
          {| timeout := timeout d;
             pending := clearTimeout t (pending d);
             nextTimer := nextTimer d;
             invoked := invoked d ++ [args] |}
      | None => d
      end
  end.

Record Throttled (A : Type) := {
  inThrottle : bool;
  resets : list nat;
  nextReset : nat;
  executed : list A
}.

Arguments inThrottle {A} t.
Arguments resets {A} t.
Arguments nextReset {A} t.
Arguments executed {A} t.

(** [throttle(func, limit)] before any call: [inThrottle] is declared
    without a value, which tests as false. *)
Definition throttle (A : Type) : Throttled A :=
  {| inThrottle := false; resets := []; nextReset := 1; executed := [] |}.

Definition throttle_step {A : Type} (t : Throttled A) (e : Event A) : Throttled A :=
  match e with
  | Called args =>
      if inThrottle t then t
      else {| inThrottle := true;
              resets := resets t ++ [nextReset t];
              nextReset := S (nextReset t);
              executed := executed t ++ [args] |}
  | Fired r =>
      if existsb (Nat.eqb r) (resets t) then
        {| inThrottle := false;
           resets := filter (fun x => negb (x =? r)) (resets t);
           nextReset := nextReset t;
           executed := executed t |}
      else t
  end.

(** The arguments of the calls in a trace, and of the last of them. *)
Fixpoint calls {A : Type} (tr : list (Event A)) : list A :=
  match tr with
  | [] => []
  | Called a :: tr' => a :: calls tr'
  | Fired _ :: tr' => calls tr'
  end.

Definition last_call {A : Type} (tr : list (Event A)) : option A :=
  match rev (calls tr) with
  | a :: _ => Some a
  | [] => None
  end.

(** A function after a trace of events. *)
Definition debounce_run {A : Type} (tr : list (Event A)) : Debounced A :=
  fold_left debounce_step tr (debounce A).

Definition throttle_run {A : Type} (tr : list (Event A)) : Throttled A :=
  fold_left throttle_step tr (throttle A).

Definition fires {A : Type} (tr : list (Event A)) : nat :=
  length (filter (fun e => match e with Fired _ => true | Called _ => false end) tr).

End UtilsMore.

(* ===================================================================== *)
(** ** hooks/useApi.ts: the hooks of the system prompt *)
(* ===================================================================== *)

Module HooksMore.

Section Client.

Variable net : Net.

Definition useSystemPrompt : Hook net JsValue :=
  useQuery systemPromptKey (api (getSystemPrompt net)) (10 * 60 * 1000)%N.

Definition useUpdateSystemPrompt : text -> Hook net JsValue :=
  mutateAsync (fun prompt => api (updateSystemPrompt net prompt))
    (fun _ =>
       _ <- invalidateQueries systemPromptKey ;;
       toast {| title := PromptUpdated; description := JUndefined; variant := default |})
    (error_toast PromptUpdateError).

(** The title of the toast a failed mutation of the dictionary raises. *)
Definition error_title (m : DictionaryMutation) : Title :=
  match m with
  | Add _ => EntityAddError
  | Update _ _ => EntityUpdateError
  | Delete _ => EntityDeleteError
  end.

(** The world a read is made in: the cache and the toasts of [w], with the
    back end and the clock as they are by then. *)
Definition later_world (s : Server net) (now : N) (w : World net) : World net :=
  {| server := s; clock := now; cache := cache w; toasts := toasts w |}.

End Client.

End HooksMore.

(* ===================================================================== *)
(** ** hooks/useToast.ts *)
(* ===================================================================== *)

Module UseToast.

Record Toast := {
  id : text;
  title : text;
  description : option text;
  variant : Variant;
  duration : Z
}.

(** The argument of [toast]: a toast without [id], in which [variant] and
    [duration] may be left out. *)
Record ToastInput := {
  input_title : text;
  input_description : option text;
  input_variant : option Variant;
  input_duration : option Z
}.

(** The counter [toastCount] of the module, the [toasts] of one use of the
    hook, and the toasts for which a removal timer is pending. *)
Record State := {
  toastCount : nat;
  toasts : list Toast;
  timers : list text
}.

Definition initial : State := {| toastCount := 0; toasts := []; timers := [] |}.

(** [n.toString()] for a counter. *)
Definition toString (n : nat) : text := str (NilEmpty.string_of_uint (Nat.to_uint n)).

(** [toasts.filter((t) => t.id !== toastId)]. *)
Definition without (toastId : text) (l : list Toast) : list Toast :=
  filter (fun t => negb (text_eqb (id t) toastId)) l.

(** [toast(...)]: the new state and the [id] of the handle it returns. *)
Definition toast (i : ToastInput) (s : State) : State * text :=
  let count := S (toastCount s) in
  let id := toString count in
  let variant := match input_variant i with Some v => v | None => default end in
  let duration := match input_duration i with Some d => d | None => 5000%Z end in
  let newToast := {| id := id; title := input_title i;
                     description := input_description i;
                     variant := variant; duration := duration |} in
  ({| toastCount := count;
      toasts := toasts s ++ [newToast];
      timers := if (0 <? duration)%Z then timers s ++ [id] else timers s |},
   id).

(** [dismiss(toastId)], also the [dismiss] of a handle. *)
Definition dismiss (toastId : text) (s : State) : State :=
  {| toastCount := toastCount s;
     toasts := without toastId (toasts s);
     timers := timers s |}.

(** What can happen to the hook: a call of [toast], a call of [dismiss], a
    removal timer that fires, and a call of [toast] in another component,
    which shares the counter and nothing else. *)
Inductive Event :=
| Toasted (i : ToastInput)
| Dismissed (toastId : text)
| Expired (toastId : text)
| Elsewhere.

Definition step (s : State) (e : Event) : State :=
  match e with
  | Toasted i => fst (toast i s)
  | Dismissed x => dismiss x s
  | Expired x =>
      if existsb (text_eqb x) (timers s) then
        {| toastCount := toastCount s;
           toasts := without x (toasts s);
           timers := filter (fun y => negb (text_eqb y x)) (timers s) |}
      else s
  | Elsewhere =>
      {| toastCount := S (toastCount s); toasts := toasts s; timers := timers s |}
  end.

Definition run (tr : list Event) : State := fold_left step tr initial.

(** An identifier is used in a state when it is the numeral of a count the
    counter has passed. *)
Definition used (s : State) (x : text) : Prop :=
  exists k, k <= toastCount s /\ x = toString k.

(** The events that dismiss the toast [x]. *)
Definition dismisses (x : text) (e : Event) : bool :=
  match e with
  | Dismissed y => text_eqb y x
  | _ => false
  end.

End UseToast.

(* ===================================================================== *)
(** ** components/SafeDialogApp.tsx: the other handlers *)
(* ===================================================================== *)

Module SafeDialogApp.

Inductive Shown := original | masked.
Inductive ResultShown := masked_result | demasked.

Record ViewMode := {
  query : Shown;
  context : Shown;
  detail : bool;
  result : ResultShown
}.

(** [AppState] of [types/index.ts]; the texts that come from the server hold
    what the server sent. *)
Record AppState := {
  queryText : text;
  contextText : text;
  maskedQueryText : JsValue;
  maskedContextText : JsValue;
  resultText : JsValue;
  demaskedResultText : JsValue;
  maskingPrompt : text;
  systemPrompt : JsValue;
  viewMode : ViewMode;
  isProcessing : bool;
  isDemaskingResult : bool;
  error : option JsValue
}.

(** The state [useState] starts with. *)
Definition initial : AppState :=
  {| queryText := []; contextText := [];
     maskedQueryText := JString []; maskedContextText := JString [];
     resultText := JString []; demaskedResultText := JString [];
     maskingPrompt := []; systemPrompt := JString [];
     viewMode := {| query := original; context := original; detail := false;
                    result := masked_result |};
     isProcessing := false; isDemaskingResult := false; error := None |}.

(** The toasts of the handlers below, by the call that raises them, with the
    number a description shows. *)
Inductive Notice :=
| MaskingSkipped
| NothingToProcess
| TextProcessed (characters : nat)
| NothingToDemask
| ResultDemasked (characters : nat).

Definition notice_variant (n : Notice) : Variant :=
  match n with
  | MaskingSkipped => warning
  | NothingToProcess | NothingToDemask => destructive
  | TextProcessed _ | ResultDemasked _ => success
  end.

(** [v.trim()] as a condition: a [TypeError] on anything but a string. *)
Definition trim (v : JsValue) : Outcome bool :=
  match v with
  | JString s => Ok (trim_truthy s)
  | _ => Throw TypeError
  end.

(** [${v}] for the strings that reach the templates below. *)
Definition template (v : JsValue) : text :=
  match v with
  | JString s => s
  | _ => []
  end.

(** The labels of the combined text, Russian for: request, context. *)
Definition query_label : text := [1047; 1072; 1087; 1088; 1086; 1089; 58; 32]%N.
Definition context_label : text :=
  [1050; 1086; 1085; 1090; 1077; 1082; 1089; 1090; 58; 32]%N.

(** [parts.filter(Boolean).join('\n\n')]. *)
Fixpoint join (parts : list text) : text :=
  match parts with
  | [] => []
  | [p] => p
  | p :: rest => p ++ [10%N; 10%N] ++ join rest
  end.

Definition combinedText (hasMaskedQuery hasMaskedContext : bool) (s : AppState) : text :=
  join (filter (fun p => match p with [] => false | _ => true end)
          [if hasMaskedQuery then query_label ++ template (maskedQueryText s) else [];
           if hasMaskedContext then context_label ++ template (maskedContextText s) else []]).

Definition handleQueryTextChange (t : text) (prev : AppState) : AppState :=
  {| queryText := t; contextText := contextText prev;
     maskedQueryText := maskedQueryText prev;
     maskedContextText := maskedContextText prev;
     resultText := resultText prev; demaskedResultText := demaskedResultText prev;
     maskingPrompt := maskingPrompt prev; systemPrompt := systemPrompt prev;
     viewMode := viewMode prev; isProcessing := isProcessing prev;
     isDemaskingResult := isDemaskingResult prev; error := error prev |}.

(** [handleViewModeChange] with the two fields the step component sets:
    [onViewModeChange({ query: mode, context: mode })]. *)
Definition handleViewModeChange (mode : Shown) (prev : AppState) : AppState :=
  {| queryText := queryText prev; contextText := contextText prev;
     maskedQueryText := maskedQueryText prev;
     maskedContextText := maskedContextText prev;
     resultText := resultText prev; demaskedResultText := demaskedResultText prev;
     maskingPrompt := maskingPrompt prev; systemPrompt := systemPrompt prev;
     viewMode := {| query := mode; context := mode;
                    detail := detail (viewMode prev);
                    result := result (viewMode prev) |};
     isProcessing := isProcessing prev;
     isDemaskingResult := isDemaskingResult prev; error := error prev |}.

Definition handleContextTextChange (t : text) (prev : AppState) : AppState :=
  {| queryText := queryText prev; contextText := t;
     maskedQueryText := maskedQueryText prev;
     maskedContextText := maskedContextText prev;
     resultText := resultText prev; demaskedResultText := demaskedResultText prev;
     maskingPrompt := maskingPrompt prev; systemPrompt := systemPrompt prev;
     viewMode := viewMode prev; isProcessing := isProcessing prev;
     isDemaskingResult := isDemaskingResult prev; error := error prev |}.

(** The part of the state [handleMaskText] works on, and the state with
    that part put back. *)
Definition masking_part (s : AppState) : App.AppState :=
  {| App.queryText := queryText s; App.contextText := contextText s;
     App.maskedQueryText := maskedQueryText s;
     App.maskedContextText := maskedContextText s;
     App.maskingPrompt := maskingPrompt s; App.error := error s |}.

Definition with_masking (m : App.AppState) (prev : AppState) : AppState :=
  {| queryText := queryText prev; contextText := contextText prev;
     maskedQueryText := App.maskedQueryText m;
     maskedContextText := App.maskedContextText m;
     resultText := resultText prev; demaskedResultText := demaskedResultText prev;
     maskingPrompt := maskingPrompt prev; systemPrompt := systemPrompt prev;
     viewMode := viewMode prev; isProcessing := isProcessing prev;
     isDemaskingResult := isDemaskingResult prev; error := App.error m |}.

(** [handleMaskText] on the whole state. *)
Definition handleMaskText
    (mutateAsync : nat -> TextProcessingInput -> Settled Types.MaskingResult)
    (appState : AppState) : AppState * list Hooks.Toast :=
  let (m, raised) := App.handleMaskText mutateAsync (masking_part appState) in
  (with_masking m appState, raised).

Definition handleSkipMasking (prev : AppState) : AppState * list Notice :=
  ({| queryText := queryText prev; contextText := contextText prev;
      maskedQueryText := JString (queryText prev);
      maskedContextText := JString (contextText prev);
      resultText := resultText prev; demaskedResultText := demaskedResultText prev;
      maskingPrompt := maskingPrompt prev; systemPrompt := systemPrompt prev;
      viewMode := viewMode prev; isProcessing := isProcessing prev;
      isDemaskingResult := isDemaskingResult prev; error := None |},
   [MaskingSkipped]).

Definition set_result (r d : JsValue) (e : option JsValue) (prev : AppState) : AppState :=
  {| queryText := queryText prev; contextText := contextText prev;
     maskedQueryText := maskedQueryText prev;
     maskedContextText := maskedContextText prev;
     resultText := r; demaskedResultText := d;
     maskingPrompt := maskingPrompt prev; systemPrompt := systemPrompt prev;
     viewMode := viewMode prev; isProcessing := isProcessing prev;
     isDemaskingResult := isDemaskingResult prev; error := e |}.

(** [result?.substring(0, 100)] of the line logged inside [try]: a
    [TypeError] on a result that is neither a string nor nullish. *)
Definition preview (r : JsValue) : Outcome unit :=
  match r with
  | JString _ | JUndefined | JNull => Ok tt
  | _ => Throw TypeError
  end.

(** Sequencing of outcomes inside a [try] block. *)
Definition and_then (A B : Type) (o : Outcome A) (k : A -> Outcome B) : Outcome B :=
  match o with
  | Ok a => k a
  | Throw e => Throw e
  end.

(** [handleProcessText].  [mutateAsync text systemPrompt] is what the call
    of [processTextMutation.mutateAsync] settles to.  The handler throws
    when a masked text is not a string; otherwise it ends with a state and
    the toasts it raised. *)
Definition handleProcessText
    (mutateAsync : text -> JsValue -> Outcome JsValue)
    (appState : AppState) : Outcome (AppState * list Notice) :=
  match trim (maskedQueryText appState), trim (maskedContextText appState) with
  | Ok hasMaskedQuery, Ok hasMaskedContext =>
      if negb hasMaskedQuery && negb hasMaskedContext then
        Ok (appState, [NothingToProcess])
      else
        let cleared := set_result (JString []) (JString []) None appState in
        match and_then
                (mutateAsync (combinedText hasMaskedQuery hasMaskedContext appState)
                   (js_or (systemPrompt appState) (JString [])))
                (fun r => and_then (preview r) (fun _ => Ok r)) with
        | Ok r =>
            Ok (set_result r (demaskedResultText cleared) None cleared,
                [TextProcessed (length_or_0 r)])
        | Throw e =>
            Ok (set_result (resultText cleared) (demaskedResultText cleared)
                  (Some (message_of e)) cleared, [])
        end
  | Throw e, _ => Throw e
  | Ok _, Throw e => Throw e
  end.

Definition set_demasking (b : bool) (prev : AppState) : AppState :=
  {| queryText := queryText prev; contextText := contextText prev;
     maskedQueryText := maskedQueryText prev;
     maskedContextText := maskedContextText prev;
     resultText := resultText prev; demaskedResultText := demaskedResultText prev;
     maskingPrompt := maskingPrompt prev; systemPrompt := systemPrompt prev;
     viewMode := viewMode prev; isProcessing := isProcessing prev;
     isDemaskingResult := b; error := error prev |}.

(** [handleDemaskResult].  [mutateAsync maskedText] is what the call of
    [demaskTextMutation.mutateAsync] settles to. *)
Definition handleDemaskResult
    (mutateAsync : JsValue -> Outcome JsValue)
    (appState : AppState) : AppState * list Notice :=
  if negb (truthy (resultText appState)) then (appState, [NothingToDemask])
  else
    let started := set_demasking true appState in
    match mutateAsync (resultText appState) with
    | Ok demaskedResult =>
        ({| queryText := queryText started; contextText := contextText started;
            maskedQueryText := maskedQueryText started;
            maskedContextText := maskedContextText started;
            resultText := resultText started;
            demaskedResultText := demaskedResult;
            maskingPrompt := maskingPrompt started;
            systemPrompt := systemPrompt started;
            viewMode := {| query := query (viewMode started);
                           context := context (viewMode started);
                           detail := detail (viewMode started);
                           result := demasked |};
            isProcessing := isProcessing started;
            isDemaskingResult := false; error := None |},
         [ResultDemasked (length_or_0 demaskedResult)])
    | Throw e =>
        ({| queryText := queryText started; contextText := contextText started;
            maskedQueryText := maskedQueryText started;
            maskedContextText := maskedContextText started;
            resultText := resultText started;
            demaskedResultText := demaskedResultText started;
            maskingPrompt := maskingPrompt started;
            systemPrompt := systemPrompt started;
            viewMode := viewMode started;
            isProcessing := isProcessing started;
            isDemaskingResult := false; error := Some (message_of e) |},
         [])
    end.

(** What [StepwiseTextProcessor] shows as the result: the demasked text in
    demasked mode if there is one, the result of the model otherwise. *)
Definition shown_result (s : AppState) : JsValue :=
  match result (viewMode s) with
  | demasked => if truthy (demaskedResultText s) then demaskedResultText s else resultText s
  | masked_result => resultText s
  end.

End SafeDialogApp.

(* ===================================================================== *)
(** ** components/StepwiseTextProcessor.tsx: the steps *)
(* ===================================================================== *)

Module Stepwise.

Inductive WorkflowStep := input | masking | ai_processing.

(** The state of the component. *)
Record Processor := {
  currentStep : WorkflowStep;
  showSkipMaskingDialog : bool;
  globalViewMode : SafeDialogApp.Shown
}.

(** The state the three [useState] start with. *)
Definition initial : Processor :=
  {| currentStep := input; showSkipMaskingDialog := false;
     globalViewMode := SafeDialogApp.original |}.

(** [canProceedFromInput] and [hasMaskedData], computed from the props. *)
Definition canProceedFromInput (a : SafeDialogApp.AppState) : bool :=
  trim_truthy (SafeDialogApp.queryText a) || trim_truthy (SafeDialogApp.contextText a).

Definition hasMaskedData (a : SafeDialogApp.AppState) : bool :=
  truthy (SafeDialogApp.maskedQueryText a) || truthy (SafeDialogApp.maskedContextText a).

Definition set_step (st : WorkflowStep) (p : Processor) : Processor :=
  {| currentStep := st; showSkipMaskingDialog := showSkipMaskingDialog p;
     globalViewMode := globalViewMode p |}.

Definition handleNext (a : SafeDialogApp.AppState) (p : Processor) : Processor :=
  match currentStep p with
  | input => if canProceedFromInput a then set_step masking p else p
  | masking =>
      if hasMaskedData a then set_step ai_processing p
      else {| currentStep := currentStep p; showSkipMaskingDialog := true;
              globalViewMode := globalViewMode p |}
  | ai_processing => p
  end.

Definition handleBack (p : Processor) : Processor :=
  match currentStep p with
  | ai_processing => set_step masking p
  | masking => set_step input p
  | input => p
  end.

(** [handleSkipMasking] of the component: [onSkipMasking] of the parent,
    then the last step. *)
Definition handleSkipMasking (a : SafeDialogApp.AppState) (p : Processor)
  : SafeDialogApp.AppState * Processor :=
  (fst (SafeDialogApp.handleSkipMasking a), set_step ai_processing p).

(** [handleClearAll]: both texts are emptied through the handlers of the
    parent, the step and the view are reset; the effect on [globalViewMode]
    runs when that one changed. *)
Definition handleClearAll (a : SafeDialogApp.AppState) (p : Processor)
  : SafeDialogApp.AppState * Processor :=
  let cleared :=
    SafeDialogApp.handleContextTextChange []
      (SafeDialogApp.handleQueryTextChange [] a) in
  (match globalViewMode p with
   | SafeDialogApp.original => cleared
   | SafeDialogApp.masked =>
       SafeDialogApp.handleViewModeChange SafeDialogApp.original cleared
   end,
   {| currentStep := input; showSkipMaskingDialog := showSkipMaskingDialog p;
      globalViewMode := SafeDialogApp.original |}).

End Stepwise.

(* ===================================================================== *)
(** ** Facts about strings and the two expressions *)
(* ===================================================================== *)

Unset Implicit Arguments.

Lemma char_eqb_eq (a b : char) : char_eqb a b = true <-> a = b.
Proof. apply N.eqb_eq. Qed.

Lemma char_eqb_refl (a : char) : char_eqb a a = true.
Proof. apply N.eqb_refl. Qed.

Lemma text_eqb_eq (a b : text) : text_eqb a b = true <-> a = b.
Proof.
  revert b; induction a as [|x a IH]; intros [|y b]; simpl; split; intro H;
    try reflexivity; try discriminate.
  - apply andb_true_iff in H as [Hx Hab].
    apply char_eqb_eq in Hx. apply IH in Hab. congruence.
  - injection H as -> ->. rewrite char_eqb_refl. apply IH. reflexivity.
Qed.

Lemma text_eqb_refl (a : text) : text_eqb a a = true.
Proof. apply text_eqb_eq. reflexivity. Qed.

Lemma strip_prefix_app (p s : text) : strip_prefix p (p ++ s) = Some s.
Proof.
  induction p as [|x p IH]; simpl; [reflexivity|].
  rewrite char_eqb_refl. exact IH.
Qed.

Lemma strip_prefix_Some (p s r : text) : strip_prefix p s = Some r -> s = p ++ r.
Proof.
  revert s; induction p as [|x p IH]; intros s H; simpl in *.
  - congruence.
  - destruct s as [|y s]; [discriminate|].
    destruct (char_eqb x y) eqn:E; [|discriminate].
    apply char_eqb_eq in E. subst y. f_equal. apply IH. exact H.
Qed.

(** A greedy run stops exactly at the first code unit outside the class. *)
Lemma span_of_app (p : char -> bool) (run rest : text) :
  forallb p run = true ->
  match rest with c :: _ => p c = false | [] => True end ->
  span_of p (run ++ rest) = (run, rest).
Proof.
  intros Hrun Hrest. induction run as [|c run IH]; simpl in *.
  - destruct rest as [|c rest]; [reflexivity|]. simpl. rewrite Hrest. reflexivity.
  - apply andb_true_iff in Hrun as [Hc Hrun]. rewrite Hc, (IH Hrun). reflexivity.
Qed.

Lemma span_of_spec (p : char -> bool) (s run rest : text) :
  span_of p s = (run, rest) ->
  s = run ++ rest /\ forallb p run = true
  /\ match rest with c :: _ => p c = false | [] => True end.
Proof.
  revert run rest; induction s as [|c s IH]; intros run rest H; simpl in H.
  - injection H as <- <-. auto.
  - destruct (p c) eqn:Hc.
    + destruct (span_of p s) as [run' rest'] eqn:E.
      injection H as <- <-. destruct (IH _ _ eq_refl) as (-> & Hrun & Hrest).
      simpl. rewrite Hc, Hrun. auto.
    + injection H as <- <-. simpl. auto.
Qed.

Lemma char_eqb_sym (a b : char) : char_eqb a b = char_eqb b a.
Proof. apply N.eqb_sym. Qed.

(** Both expressions start with an opening brace. *)
Lemma detailedPattern_brace (c : char) (s : text) :
  char_eqb c lbrace = false -> detailedPattern (c :: s) = None.
Proof.
  intro H. unfold detailedPattern.
  change (str "{ID=") with (lbrace :: str "ID=").
  cbn [strip_prefix]. rewrite char_eqb_sym, H. reflexivity.
Qed.

Lemma simplePattern_brace (c : char) (s : text) :
  char_eqb c lbrace = false -> simplePattern (c :: s) = None.
Proof.
  intro H. unfold simplePattern. destruct s as [|h s]; [reflexivity|].
  rewrite H. reflexivity.
Qed.

Section ReplaceFacts.

Variable M : Type.
Variable exec : text -> option M.
Variable width : M -> nat.
Variable callback : M -> text.

Hypothesis exec_brace :
  forall c s, char_eqb c lbrace = false -> exec (c :: s) = None.

Lemma replace_from_skip (a rest : text) :
  replace_from exec width callback (length a) (a ++ rest)
  = replace_from exec width callback 0 rest.
Proof.
  induction a as [|c a IH]; simpl.
  - destruct rest; reflexivity.
  - exact IH.
Qed.

(** Text without an opening brace is copied. *)
Lemma replace_plain (pre s : text) :
  no_char lbrace pre = true ->
  replace exec width callback (pre ++ s) = pre ++ replace exec width callback s.
Proof.
  unfold replace. induction pre as [|c pre IH]; simpl; intro H; [reflexivity|].
  apply andb_true_iff in H as [Hc H]. apply negb_true_iff in Hc.
  rewrite exec_brace by exact Hc. f_equal. apply IH. exact H.
Qed.

(** A match at the head is replaced by what the callback returns, and the
    scan resumes after it. *)
Lemma replace_match (tok rest : text) (m : M) :
  exec (tok ++ rest) = Some m ->
  width m = length tok ->
  tok <> [] ->
  replace exec width callback (tok ++ rest)
  = callback m ++ replace exec width callback rest.
Proof.
  intros He Hw Hne. unfold replace. destruct tok as [|c a]; [congruence|].
  simpl in *. rewrite He, Hw. simpl. f_equal. apply replace_from_skip.
Qed.

(** Where the expression matches nowhere, the text is returned as it is. *)
Lemma replace_no_match (s : text) :
  (forall a b, s = a ++ b -> exec b = None) ->
  replace exec width callback s = s.
Proof.
  unfold replace. induction s as [|c s IH]; intro H; simpl; [reflexivity|].
  rewrite (H [] (c :: s) eq_refl). f_equal. apply IH.
  intros a b E. apply (H (c :: a) b). simpl. congruence.
Qed.

End ReplaceFacts.

(* ===================================================================== *)
(** ** The placeholder grammar *)
(* ===================================================================== *)

Lemma white_space_rbrace : white_space rbrace = false.
Proof. reflexivity. Qed.

Lemma closing_quote (q : char) (rest : text) :
  closing q (q :: rbrace :: rest) = Some ([q; rbrace], rest).
Proof.
  unfold closing. rewrite char_eqb_refl. cbn [span_of].
  rewrite white_space_rbrace, char_eqb_refl. reflexivity.
Qed.

Lemma closing_other (q c : char) (s : text) :
  char_eqb c q = false -> closing q (c :: s) = None.
Proof. intro H. unfold closing. rewrite H. reflexivity. Qed.

(** The lazy group stops at the first quote when the value holds none. *)
Lemma lazy_value_plain (q : char) (v rest : text) :
  no_char q v = true -> forallb dot v = true ->
  lazy_value q (v ++ q :: rbrace :: rest) = Some (v, [q; rbrace], rest).
Proof.
  induction v as [|c v IH]; intros Hq Hd.
  - cbn [app lazy_value]. rewrite closing_quote. reflexivity.
  - cbn [no_char forallb] in Hq, Hd.
    apply andb_true_iff in Hq as [Hc Hq]. apply negb_true_iff in Hc.
    apply andb_true_iff in Hd as [Hdc Hd].
    cbn [app lazy_value]. rewrite (closing_other _ _ _ Hc), Hdc.
    fold (no_char q v) in Hq. rewrite (IH Hq Hd). reflexivity.
Qed.

(** A well-formed detailed token is matched whole, with its three groups. *)
Lemma detailedPattern_token (i v rest : text) (q : char) :
  i <> [] -> forallb id_char i = true -> quote_char q = true ->
  no_char q v = true -> forallb dot v = true ->
  detailedPattern (detailed_token i q v ++ rest)
  = Some {| m_fullMatch := detailed_token i q v; m_id := i; m_quote := q;
            m_placeholder := v; m_after := rest |}.
Proof.
  intros Hne Hid Hq Hv Hd. unfold detailedPattern.
  replace (detailed_token i q v ++ rest)
    with (str "{ID=" ++ i ++ comma :: [32%N] ++ str "TXT=" ++ q :: v ++ q :: rbrace :: rest).
  2:{ unfold detailed_token. repeat rewrite <- app_assoc. reflexivity. }
  rewrite strip_prefix_app.
  rewrite (span_of_app id_char i (comma :: _) Hid) by reflexivity.
  destruct i as [|i0 i']; [congruence|].
  rewrite char_eqb_refl.
  rewrite (span_of_app white_space [32%N] (str "TXT=" ++ _)) by reflexivity.
  rewrite strip_prefix_app, Hq, (lazy_value_plain _ _ _ Hv Hd).
  reflexivity.
Qed.

Lemma detailed_token_length_pos (i v : text) (q : char) : detailed_token i q v <> [].
Proof. unfold detailed_token. discriminate. Qed.

(** What [simplePattern] returns is a match in the grammar of the code,
    followed by the rest of the subject. *)
Lemma simplePattern_Some (t m r : text) :
  simplePattern t = Some (m, r) -> t = m ++ r /\ code_simple m.
Proof.
  unfold simplePattern. intro H.
  destruct t as [|o [|h s1]]; try discriminate.
  destruct (char_eqb o lbrace && simple_head h) eqn:E; [|discriminate].
  destruct (span_of simple_tail s1) as [run s2] eqn:Es.
  destruct s2 as [|c rest]; [discriminate|].
  destruct (char_eqb c rbrace) eqn:Ec; [|discriminate].
  injection H as <- <-.
  apply andb_true_iff in E as [Eo Eh].
  apply char_eqb_eq in Eo, Ec. subst o c.
  destruct (span_of_spec _ _ _ _ Es) as (-> & Hrun & _).
  split.
  - simpl. rewrite <- app_assoc. reflexivity.
  - exists h, run. auto.
Qed.

Lemma simplePattern_code_simple (s rest : text) :
  code_simple s -> simplePattern (s ++ rest) = Some (s, rest).
Proof.
  intros (h & run & -> & Hh & Hrun). unfold simplePattern.
  cbn [app]. rewrite char_eqb_refl, Hh. cbn [andb].
  rewrite <- app_assoc.
  rewrite (span_of_app simple_tail run ([rbrace] ++ rest) Hrun) by reflexivity.
  cbn [app]. rewrite char_eqb_refl. reflexivity.
Qed.

(** C7, as stated, fails: the expression of the code also accepts an
    underscore as the first code unit between the braces, which the wire
    grammar of the specification excludes. *)
Lemma simplePattern_underscore_head :
  simplePattern (str "{_A}") = Some (str "{_A}", [])
  /\ ~ wire_simple (str "{_A}").
Proof.
  split; [reflexivity|].
  intros (h & run & E & Hh & _).
  change (str "{_A}") with [lbrace; underscore; 65%N; rbrace] in E.
  injection E as Eh _. subst h. discriminate Hh.
Qed.

(** C7, amended: a bracketed run is matched by [simplePattern] exactly when
    its first code unit between the braces is an uppercase letter or an
    underscore and the others are uppercase letters, digits or underscores. *)
Theorem simplePattern_grammar (s rest : text) :
  simplePattern (s ++ rest) = Some (s, rest) <-> code_simple s.
Proof.
  split.
  - intro H. apply simplePattern_Some in H. tauto.
  - apply simplePattern_code_simple.
Qed.

(** C6, as stated, fails: the dot of the expression does not match a line
    terminator, so a token whose value holds a newline is not recognized, and
    it is left in the text as it is. *)
Lemma detailedPattern_newline_value :
  let v := str "a" ++ [10%N] ++ str "b" in
  claimed_detailed (str "1") squote v
  /\ detailedPattern (detailed_token (str "1") squote v) = None
  /\ extractPlaceholdersFromMasked (detailed_token (str "1") squote v)
     = detailed_token (str "1") squote v.
Proof. repeat split; reflexivity. Qed.

(** C6, amended: every text [{ID=<id>, TXT=<q><value><q>}] whose identifier
    is not empty and holds no comma and no closing brace, whose quote is a
    single or a double quote, and whose value holds neither that quote nor a
    line terminator, is matched whole by [detailedPattern] with the
    identifier and the value as its groups; after text without an opening
    brace, the scan of [replace] hands exactly this match to the callback. *)
Theorem detailedPattern_recognizes (i v : text) (q : char) :
  i <> [] -> forallb id_char i = true -> quote_char q = true ->
  no_char q v = true -> forallb dot v = true ->
  forall rest,
    detailedPattern (detailed_token i q v ++ rest)
    = Some {| m_fullMatch := detailed_token i q v; m_id := i; m_quote := q;
              m_placeholder := v; m_after := rest |}
    /\ forall (callback : DetailedMatch -> text) (pre : text),
         no_char lbrace pre = true ->
         replace detailedPattern (fun m => length (m_fullMatch m)) callback
           (pre ++ detailed_token i q v ++ rest)
         = pre
           ++ callback {| m_fullMatch := detailed_token i q v; m_id := i;
                          m_quote := q; m_placeholder := v; m_after := rest |}
           ++ replace detailedPattern (fun m => length (m_fullMatch m)) callback rest.
Proof.
  intros Hne Hid Hq Hv Hd rest.
  pose proof (detailedPattern_token i v rest q Hne Hid Hq Hv Hd) as Hm.
  split; [exact Hm|].
  intros callback pre Hpre.
  rewrite (replace_plain _ _ _ _ detailedPattern_brace _ _ Hpre).
  f_equal.
  apply (replace_match _ _ _ _ _ _ _ Hm); [reflexivity|apply detailed_token_length_pos].
Qed.

Lemma detailedPattern_recognizes_witness :
  detailedPattern (detailed_token (str "7") dquote (str "it's") ++ str " tail")
  = Some {| m_fullMatch := detailed_token (str "7") dquote (str "it's");
            m_id := str "7"; m_quote := dquote; m_placeholder := str "it's";
            m_after := str " tail" |}.
Proof.
  apply (detailedPattern_recognizes (str "7") (str "it's") dquote);
    solve [discriminate | reflexivity].
Defined.

(* ===================================================================== *)
(** ** Rendering of masked text *)
(* ===================================================================== *)

Lemma no_char_app (c : char) (a b : text) :
  no_char c (a ++ b) = no_char c a && no_char c b.
Proof. apply forallb_app. Qed.

Lemma quote_not_lbrace (q : char) : quote_char q = true -> char_eqb q lbrace = false.
Proof.
  unfold quote_char. intro H. apply orb_true_iff in H as [H|H];
    apply char_eqb_eq in H; subst q; reflexivity.
Qed.

(** A text without an opening brace goes through both passes unchanged. *)
Lemma replace_braceless (M : Type) (exec : text -> option M) (width : M -> nat)
    (callback : M -> text) (s : text) :
  (forall c r, char_eqb c lbrace = false -> exec (c :: r) = None) ->
  no_char lbrace s = true ->
  replace exec width callback s = s.
Proof.
  intros Hb Hs. rewrite <- (app_nil_r s) at 1.
  rewrite (replace_plain _ _ _ _ Hb _ _ Hs). apply app_nil_r.
Qed.

Lemma replace_token_alone (callback : DetailedMatch -> text) (i v : text) (q : char) :
  i <> [] -> forallb id_char i = true -> quote_char q = true ->
  no_char q v = true -> forallb dot v = true ->
  replace detailedPattern (fun m => length (m_fullMatch m)) callback (detailed_token i q v)
  = callback {| m_fullMatch := detailed_token i q v; m_id := i; m_quote := q;
                m_placeholder := v; m_after := [] |}.
Proof.
  intros Hne Hid Hq Hv Hd.
  pose proof (detailedPattern_token i v [] q Hne Hid Hq Hv Hd) as Hm.
  rewrite <- (app_nil_r (detailed_token i q v)) at 1.
  rewrite (replace_match _ _ _ callback _ _ _ Hm);
    [apply app_nil_r | reflexivity | apply detailed_token_length_pos].
Qed.

Lemma chip_braceless (v : text) : no_char lbrace v = true -> no_char lbrace (chip v) = true.
Proof.
  intro H. unfold chip. rewrite !no_char_app, H. reflexivity.
Qed.

(** The second pass leaves the chip of a detailed token alone when neither
    the identifier nor the value holds an opening brace. *)
Lemma render_simple_chip_token (i v : text) (q : char) :
  quote_char q = true -> no_char lbrace i = true -> no_char lbrace v = true ->
  render_simple (chip (detailed_token i q v)) = chip (detailed_token i q v).
Proof.
  intros Hq Hi Hv. unfold render_simple.
  set (cb := simple_callback (chip (detailed_token i q v))).
  unfold chip.
  rewrite (replace_plain _ simplePattern _ cb simplePattern_brace span_open _ eq_refl).
  f_equal.
  change (detailed_token i q v ++ span_close)
    with (lbrace :: (str "ID=" ++ i ++ str ", TXT=" ++ [q] ++ v ++ [q] ++ str "}")
                    ++ span_close).
  unfold replace. cbn [replace_from].
  replace (simplePattern _) with (@None (text * text)) by reflexivity.
  f_equal.
  apply (replace_braceless _ simplePattern _ cb _ simplePattern_brace).
  rewrite !no_char_app, Hi, Hv. cbn [no_char forallb].
  rewrite (quote_not_lbrace q Hq). reflexivity.
Qed.




(** C4: the check of the second pass locates the simple token with
    [result.indexOf(match)], which finds the first occurrence of those code
    units, not the occurrence being replaced.  A simple token that stands
    before a detailed token holding the same text makes the check look at
    the wrong place: the text inside the value of the detailed token, which
    the first pass has already put in a chip, is wrapped in a chip of its
    own. *)
Theorem renderMaskedHtml_nested_chip :
  renderMaskedHtml (str "{A} {ID=1, TXT='{A}'}") blocks
  = chip (str "{A}") ++ str " "
    ++ chip (str "{ID=1, TXT='" ++ chip (str "{A}") ++ str "'}").
Proof. vm_compute. reflexivity. Qed.

(* ===================================================================== *)
(** ** The API client *)
(* ===================================================================== *)

(** Unfolds an operation of [apiClient] down to the request it sends. *)
Ltac unfold_client :=
  unfold maskText, demaskText, processWithOpenRouter, getSensitiveEntities,
    addSensitiveEntity, updateSensitiveEntity, deleteSensitiveEntity,
    getSystemPrompt, updateSystemPrompt, healthCheck,
    bind, lift, ret, api_post, api_get, api_put, api_delete, api_request.

(** Every operation sends its one request through [api] and hands the
    response to [handleApiResponse] before anything else. *)
Lemma perform_refused (net : Net) (op : Operation) (w w' : Server net) (r : Response) :
  serve net w (request_of op) = (w', Answered r) ->
  validateStatus (status r) = false ->
  perform net op w
  = (w', Throw (response_error {| error_message := fst (refused net r);
                                  error_code := snd (refused net r);
                                  error_response := Some r |})).
Proof.
  intros Hs Hv.
  destruct op; cbn [perform request_of] in *; unfold_client;
    rewrite Hs; cbn [settle]; rewrite Hv; reflexivity.
Qed.

Lemma handleApiResponse_failure (r : Response) :
  get_opt (data r) "success" = JBool false ->
  exists message, handleApiResponse r = Throw (AppError message None None).
Proof.
  intro H. unfold handleApiResponse. rewrite H.
  destruct (data r); try discriminate. cbn [get]. eauto.
Qed.

Lemma perform_success_false (net : Net) (op : Operation) (w w' : Server net) (r : Response) :
  serve net w (request_of op) = (w', Answered r) ->
  validateStatus (status r) = true ->
  get_opt (data r) "success" = JBool false ->
  exists message, perform net op w = (w', Throw (AppError message None None)).
Proof.
  intros Hs Hv Hf.
  destruct (handleApiResponse_failure r Hf) as [message Hm]. exists message.
  destruct op; cbn [perform request_of] in *; unfold_client;
    rewrite Hs; cbn [settle]; rewrite Hv, Hm; reflexivity.
Qed.








(* ===================================================================== *)
(** ** The hooks of the entity dictionary *)
(* ===================================================================== *)

Section HookFacts.

Variable net : Net.

Lemma key_prefix_refl (k : QueryKey) : key_prefix k k = true.
Proof.
  induction k as [|a k IH]; [reflexivity|]. cbn [key_prefix].
  rewrite String.eqb_refl. exact IH.
Qed.

Lemma find_query_In (k : QueryKey) (c : list (QueryKey * Query)) (q : Query) :
  find_query k c = Some q -> In (k, q) c.
Proof.
  induction c as [|[k' q'] c IH]; cbn [find_query]; [discriminate|].
  destruct (list_eq_dec string_dec k k') as [<-|_]; intro H.
  - injection H as <-. left. reflexivity.
  - right. apply IH. exact H.
Qed.

(** After [invalidateQueries key], every query under [key] is invalidated. *)
Lemma invalidated_cache (k : QueryKey) (c : list (QueryKey * Query)) :
  forall k' q,
    In (k', q)
       (map (fun e => if key_prefix k (fst e) then (fst e, invalidate (snd e)) else e) c) ->
    key_prefix k k' = true -> isInvalidated q = true.
Proof.
  intros k' q Hin Hk. apply in_map_iff in Hin as ([k0 q0] & E & _).
  cbn [fst snd] in E. destruct (key_prefix k k0) eqn:Hk0.
  - injection E as <- <-. reflexivity.
  - injection E as <- <-. congruence.
Qed.

(** Where every cached query of the dictionary is invalidated, reading the
    dictionary runs the query function. *)
Lemma useSensitiveEntities_fetches (w : World net) :
  (forall k q, In (k, q) (cache w) -> key_prefix sensitiveEntities k = true ->
               isInvalidated q = true) ->
  snd (useSensitiveEntities w) = snd (getSensitiveEntities net (server w)).
Proof.
  intro H. unfold useSensitiveEntities, useQuery.
  assert (Hq : snd (api (getSensitiveEntities net) w)
               = snd (getSensitiveEntities net (server w))).
  { unfold api. destruct (getSensitiveEntities net (server w)). reflexivity. }
  destruct (find_query sensitiveEntities (cache w)) as [q|] eqn:Ef.
  - apply find_query_In in Ef.
    unfold isStale. rewrite (H _ _ Ef (key_prefix_refl _)). cbn [orb].
    rewrite <- Hq.
    destruct (api (getSensitiveEntities net) w) as [w1 [a|e]]; reflexivity.
  - rewrite <- Hq.
    destruct (api (getSensitiveEntities net) w) as [w1 [a|e]]; reflexivity.
Qed.

(** A successful mutation leaves the server as the call left it and the
    cache with every query of the dictionary invalidated. *)
Lemma mutate_success (m : DictionaryMutation) (w : World net) (s' : Server net)
    (a : JsValue) :
  mutationFn net m (server w) = (s', Ok a) ->
  server (fst (mutate m w)) = s'
  /\ cache (fst (mutate m w))
     = map (fun e => if key_prefix sensitiveEntities (fst e)
                     then (fst e, invalidate (snd e)) else e) (cache w).
Proof.
  intro Hm.
  destruct m as [d|i d|i]; cbn [mutationFn mutate] in *;
    unfold useAddSensitiveEntity, useUpdateSensitiveEntity, useDeleteSensitiveEntity,
      mutateAsync, api, bind, lift, invalidateQueries, error_toast, toast;
    cbn [fst snd]; rewrite Hm; cbn [server clock cache toasts];
    try (destruct (get a "name") as [n|e]); cbn; split; reflexivity.
Qed.

End HookFacts.



(* ===================================================================== *)
(** ** Masking two fields *)
(* ===================================================================== *)

(** C5, as stated, fails: [handleMaskText] awaits the two calls with
    [Promise.all].  When the call for the context rejects, the result of the
    call for the query, which fulfilled, is not applied: the masked query
    text keeps its old value and only the error is stored. *)
Lemma handleMaskText_one_failure_discards_both :
  outcome (Backends.second_call_fails 0
             {| text_ := str "Hello Ivan"; systemPrompt := Some [] |})
  = Ok Backends.masked_hello
  /\ maskedQueryText (fst (handleMaskText Backends.second_call_fails Backends.two_fields))
     = JString []
  /\ maskedQueryText (fst (handleMaskText Backends.second_call_fails Backends.two_fields))
     <> maskedText Backends.masked_hello
  /\ error (fst (handleMaskText Backends.second_call_fails Backends.two_fields))
     = Some (JString (str "detector unreachable")).
Proof. repeat split. discriminate. Qed.

(** C5, amended: when both fields hold text, [handleMaskText] applies the
    two masked texts only if both calls fulfil.  If either call rejects,
    neither masked text is applied, whatever the other call returned, and
    the message of the rejection that came first is stored as the error.
    Each call by itself either fulfils with a whole result or rejects. *)
Theorem handleMaskText_all_or_nothing
    (mutateAsync : nat -> TextProcessingInput -> Settled MaskingResult)
    (appState : AppState) :
  trim_truthy (queryText appState) = true ->
  trim_truthy (contextText appState) = true ->
  let input t := {| text_ := t; systemPrompt := Some (maskingPrompt appState) |} in
  let p0 := mutateAsync 0 (input (queryText appState)) in
  let p1 := mutateAsync 1 (input (contextText appState)) in
  let after := fst (handleMaskText mutateAsync appState) in
  match outcome p0, outcome p1 with
  | Ok r0, Ok r1 =>
      maskedQueryText after = maskedText r0
      /\ maskedContextText after = maskedText r1
      /\ error after = None
  | Throw e, Ok _ | Ok _, Throw e =>
      maskedQueryText after = maskedQueryText appState
      /\ maskedContextText after = maskedContextText appState
      /\ error after = Some (message_of e)
  | Throw e0, Throw e1 =>
      maskedQueryText after = maskedQueryText appState
      /\ maskedContextText after = maskedContextText appState
      /\ error after
         = Some (message_of (if settledAt p0 <=? settledAt p1 then e0 else e1))
  end.
Proof.
  intros Hq Hc input p0 p1 after. subst after.
  unfold handleMaskText. rewrite Hq, Hc. cbn [negb andb app].
  change (mutateAsync 0 _) with p0. change (mutateAsync 1 _) with p1.
  unfold Promise_all, then_. cbn [first_rejection outcome settledAt values].
  destruct (outcome p0) as [r0|e0], (outcome p1) as [r1|e1];
    cbn [first_rejection outcome settledAt values fst apply_results set_error
         maskedQueryText maskedContextText error].
  - auto.
  - auto.
  - auto.
  - destruct (settledAt p0 <=? settledAt p1); auto.
Qed.

Lemma handleMaskText_all_or_nothing_witness :
  maskedQueryText (fst (handleMaskText Backends.both_calls_succeed Backends.two_fields))
  = maskedText Backends.masked_hello
  /\ maskedContextText (fst (handleMaskText Backends.both_calls_succeed Backends.two_fields))
     = maskedText Backends.masked_bye
  /\ error (fst (handleMaskText Backends.both_calls_succeed Backends.two_fields)) = None.
Proof.
  exact (handleMaskText_all_or_nothing Backends.both_calls_succeed Backends.two_fields
           eq_refl eq_refl).
Defined.

(* ===================================================================== *)
(** ** The engine: encoding and the round trip *)
(* ===================================================================== *)

Module EngineFacts.

Import Engine.

(** *** Decimal numerals *)

Lemma str_cons (a : ascii) (s : string) : str (String a s) = ch a :: str s.
Proof. reflexivity. Qed.

Lemma ch_inj (a b : ascii) : ch a = ch b -> a = b.
Proof.
  unfold ch. intro H. rewrite <- (ascii_N_embedding a), <- (ascii_N_embedding b).
  f_equal. exact H.
Qed.

Lemma str_inj (s s' : string) : str s = str s' -> s = s'.
Proof.
  revert s'; induction s as [|a s IH]; intros [|b s'] H; try discriminate.
  - reflexivity.
  - rewrite !str_cons in H. injection H as Ha Hs.
    apply ch_inj in Ha. apply IH in Hs. congruence.
Qed.

Lemma decimal_inj (n m : nat) : decimal n = decimal m -> n = m.
Proof.
  unfold decimal. intro H. apply str_inj in H.
  apply Unsigned.to_uint_inj.
  assert (E : Some (Nat.to_uint n) = Some (Nat.to_uint m)).
  { rewrite <- !NilEmpty.usu. f_equal. exact H. }
  injection E as E. exact E.
Qed.

Lemma digits_id_chars (d : Decimal.uint) :
  forallb id_char (str (NilEmpty.string_of_uint d)) = true.
Proof.
  induction d; cbn [NilEmpty.string_of_uint]; rewrite ?str_cons; cbn [forallb];
    rewrite ?IHd; reflexivity.
Qed.

Lemma decimal_id_chars (n : nat) : forallb id_char (decimal n) = true.
Proof. apply digits_id_chars. Qed.

Lemma decimal_nonempty (n : nat) : decimal n <> [].
Proof.
  unfold decimal. destruct (Nat.to_uint n) eqn:E; try (cbn; discriminate).
  pose proof (Unsigned.of_to n) as H. rewrite E in H. cbn in H. subst n.
  discriminate E.
Qed.

(** *** Sorting and overlap resolution *)

Lemma insert_In (s x : Span) (l : list Span) : In x (insert s l) <-> x = s \/ In x l.
Proof.
  induction l as [|a l IH]; cbn [insert].
  - cbn. intuition congruence.
  - destruct (start s <=? start a); cbn [In]; [intuition congruence|].
    rewrite IH. intuition congruence.
Qed.

Lemma insert_sorted (s : Span) (l : list Span) : sorted l -> sorted (insert s l).
Proof.
  induction l as [|a l IH]; cbn [insert sorted]; intro H.
  - split; [intros b []|exact I].
  - destruct H as [Ha Hl]. destruct (start s <=? start a) eqn:E.
    + apply Nat.leb_le in E. cbn [sorted]. repeat split; auto.
      intros b [<-|Hb]; [exact E|]. specialize (Ha b Hb). lia.
    + apply Nat.leb_gt in E. cbn [sorted]. split; [|auto].
      intros b Hb. apply insert_In in Hb as [->|Hb]; [lia|auto].
Qed.

Lemma sort_by_start_In (x : Span) (l : list Span) : In x (sort_by_start l) <-> In x l.
Proof.
  induction l as [|a l IH]; cbn [sort_by_start]; [reflexivity|].
  rewrite insert_In, IH. cbn. intuition congruence.
Qed.

Lemma sort_by_start_sorted (l : list Span) : sorted (sort_by_start l).
Proof.
  induction l as [|a l IH]; cbn [sort_by_start]; [exact I|].
  apply insert_sorted. exact IH.
Qed.

Lemma resolve_from_In (x cur : Span) (l : list Span) :
  In x (resolve_from cur l) -> x = cur \/ In x l.
Proof.
  revert cur; induction l as [|s l IH]; intros cur; cbn [resolve_from].
  - cbn. intuition congruence.
  - destruct (start s <? stop cur).
    + intro H. apply IH in H. cbn [In].
      destruct (length (value cur) <? length (value s)); intuition congruence.
    + cbn [In]. intros [<-|H]; [auto|]. apply IH in H. intuition congruence.
Qed.

Lemma resolve_from_chain (l : list Span) :
  forall cur pos,
    pos <= start cur ->
    (forall b, In b l -> start cur <= start b) ->
    sorted l ->
    chain pos (resolve_from cur l).
Proof.
  induction l as [|s l IH]; intros cur pos Hpos Hcur Hl; cbn [resolve_from].
  - cbn. auto.
  - destruct Hl as [Hs Hl].
    assert (Hcs : start cur <= start s) by (apply Hcur; left; reflexivity).
    destruct (start s <? stop cur) eqn:E.
    + destruct (length (value cur) <? length (value s)).
      * apply IH; [lia|exact Hs|exact Hl].
      * apply IH; [exact Hpos| |exact Hl].
        intros b Hb. apply Hcur. right. exact Hb.
    + apply Nat.ltb_ge in E. cbn [chain]. split; [exact Hpos|].
      apply IH; [exact E|exact Hs|exact Hl].
Qed.

Lemma resolve_overlaps_In (x : Span) (l : list Span) :
  In x (resolve_overlaps l) -> In x l.
Proof.
  destruct l as [|s l]; cbn [resolve_overlaps]; [auto|].
  intro H. apply resolve_from_In in H. cbn. intuition congruence.
Qed.

Lemma resolve_overlaps_chain (l : list Span) : sorted l -> chain 0 (resolve_overlaps l).
Proof.
  destruct l as [|s l]; cbn [resolve_overlaps sorted]; [auto|].
  intros [Hs Hl]. apply resolve_from_chain; [lia|exact Hs|exact Hl].
Qed.

(** *** Identifiers *)

Section Assign.

Variable label : option Category -> nat -> text.
Variable dictionary : list SensitiveEntity.
Hypothesis dictionary_fine : dictionary_ok dictionary.

Lemma find_named (v : text) (l : list SensitiveEntity) (e : SensitiveEntity) :
  find (named v) l = Some e -> In e l /\ name e = v.
Proof.
  intro H. apply find_some in H as [Hin Hn]. split; [exact Hin|].
  apply text_eqb_eq. exact Hn.
Qed.

Lemma functional_incl (l l' : list SensitiveEntity) :
  incl l' l -> functional l -> functional l'.
Proof. intros Hi Hf e1 e2 H1 H2. apply Hf; apply Hi; assumption. Qed.

Lemma functional_snoc (known : list SensitiveEntity) (e : SensitiveEntity) :
  functional known ->
  (forall e', In e' known -> id e' = id e -> name e' = name e) ->
  functional (known ++ [e]).
Proof.
  intros Hf He e1 e2 H1 H2 E.
  apply in_app_iff in H1 as [H1|[<-|[]]]; apply in_app_iff in H2 as [H2|[<-|[]]].
  - apply Hf; assumption.
  - apply He; assumption.
  - symmetry. apply He; [assumption|congruence].
  - reflexivity.
Qed.

Lemma assign_spec (spans : list Span) :
  forall known next,
    (forall e, In e known -> origin dictionary next e) ->
    (forall e, In e known -> well_formed_id (id e)) ->
    functional known ->
    map fst (assign label dictionary known next spans) = spans
    /\ (forall s e, In (s, e) (assign label dictionary known next spans) ->
                    name e = value s /\ well_formed_id (id e))
    /\ functional (known ++ map snd (assign label dictionary known next spans)).
Proof.
  destruct dictionary_fine as (Dwf & Dfun & Dnum).
  induction spans as [|s rest IH]; intros known next Ho Hw Hf; cbn [assign].
  - cbn. rewrite app_nil_r. split; [reflexivity|]. split; [intros s e []|exact Hf].
  - destruct (find (named (value s)) known) as [e|] eqn:Ek.
    + apply find_named in Ek as [Hin Hn].
      destruct (IH known next Ho Hw Hf) as (I1 & I2 & I3).
      cbn [map fst snd]. split; [f_equal; exact I1|]. split.
      * intros s' e' [H|H]; [|apply (I2 _ _ H)].
        injection H as <- <-. split; [exact Hn|apply (Hw _ Hin)].
      * apply (fun H => functional_incl _ _ H I3). intros x Hx.
        apply in_app_iff in Hx as [Hx|[<-|Hx]]; apply in_app_iff; auto.
    + destruct (find (named (value s)) dictionary) as [d|] eqn:Ed.
      * apply find_named in Ed as [Hd Hn].
        set (e := {| id := id d; name := value s; placeholder := placeholder d;
                     category := category d |}).
        assert (Ho' : forall x, In x (known ++ [e]) -> origin dictionary next x).
        { intros x Hx. apply in_app_iff in Hx as [Hx|[<-|[]]]; [auto|].
          left. exists d. cbn. auto. }
        assert (Hw' : forall x, In x (known ++ [e]) -> well_formed_id (id x)).
        { intros x Hx. apply in_app_iff in Hx as [Hx|[<-|[]]]; [auto|].
          cbn. apply Dwf. exact Hd. }
        assert (Hf' : functional (known ++ [e])).
        { apply functional_snoc; [exact Hf|]. intros e' He' E. cbn in E |- *.
          destruct (Ho _ He') as [(d' & Hd' & Ei & En)|(n & _ & Ei)].
          - rewrite En, <- Hn. apply Dfun; [assumption|assumption|congruence].
          - exfalso. apply (Dnum d n Hd). congruence. }
        destruct (IH (known ++ [e]) next Ho' Hw' Hf') as (I1 & I2 & I3).
        cbn [map fst snd]. split; [f_equal; exact I1|]. split.
        -- intros s' e' [H|H]; [|apply (I2 _ _ H)].
           injection H as <- <-. split; [reflexivity|apply (Dwf _ Hd)].
        -- rewrite <- app_assoc in I3. exact I3.
      * set (e := {| id := decimal next; name := value s;
                     placeholder := label (span_category s) next;
                     category := span_category s |}).
        assert (Ho' : forall x, In x (known ++ [e]) -> origin dictionary (S next) x).
        { intros x Hx. apply in_app_iff in Hx as [Hx|[<-|[]]].
          - destruct (Ho _ Hx) as [H|(n & Hn & Ei)]; [left; exact H|].
            right. exists n. split; [lia|exact Ei].
          - right. exists next. split; [lia|reflexivity]. }
        assert (Hw' : forall x, In x (known ++ [e]) -> well_formed_id (id x)).
        { intros x Hx. apply in_app_iff in Hx as [Hx|[<-|[]]]; [auto|].
          cbn. split; [apply decimal_nonempty|apply decimal_id_chars]. }
        assert (Hf' : functional (known ++ [e])).
        { apply functional_snoc; [exact Hf|]. intros e' He' E. cbn in E. exfalso.
          destruct (Ho _ He') as [(d' & Hd' & Ei & _)|(n & Hn & Ei)].
          - apply (Dnum d' next Hd'). congruence.
          - rewrite Ei in E. apply decimal_inj in E. lia. }
        destruct (IH (known ++ [e]) (S next) Ho' Hw' Hf') as (I1 & I2 & I3).
        cbn [map fst snd]. split; [f_equal; exact I1|]. split.
        -- intros s' e' [H|H]; [|apply (I2 _ _ H)].
           injection H as <- <-.
           split; [reflexivity|split; [apply decimal_nonempty|apply decimal_id_chars]].
        -- rewrite <- app_assoc in I3. exact I3.
Qed.

End Assign.

(** *** The mapping built from the entities found *)

Lemma existsb_text_eqb (i : text) (seen : list text) :
  existsb (text_eqb i) seen = true <-> In i seen.
Proof.
  rewrite existsb_exists. split.
  - intros (x & Hx & E). apply text_eqb_eq in E. congruence.
  - intro H. exists i. split; [exact H|apply text_eqb_refl].
Qed.

(** Deduplication by identifier keeps, for every identifier that occurs, an
    entity with that identifier. *)
Lemma dedup_assoc (l : list SensitiveEntity) :
  forall seen i,
    ~ In i seen ->
    (exists e, In e l /\ id e = i) ->
    exists e', assoc i (map (fun e => (id e, e)) (dedup_by_id seen l)) = Some e'
               /\ In e' l /\ id e' = i.
Proof.
  induction l as [|e0 l IH]; intros seen i Hi (e & He & Ei); [destruct He|].
  cbn [dedup_by_id]. destruct (existsb (text_eqb (id e0)) seen) eqn:Es.
  - apply existsb_text_eqb in Es.
    destruct He as [<-|He]; [congruence|].
    destruct (IH seen i Hi (ex_intro _ e (conj He Ei))) as (e' & A & B & C).
    exists e'. cbn [In]. auto.
  - cbn [map assoc]. destruct (text_eqb i (id e0)) eqn:E0.
    + apply text_eqb_eq in E0. exists e0. cbn [In]. auto.
    + assert (Hne : i <> id e0).
      { intro H. rewrite H, text_eqb_refl in E0. discriminate. }
      destruct He as [<-|He]; [congruence|].
      assert (Hi' : ~ In i (id e0 :: seen)).
      { cbn [In]. intros [H|H]; [congruence|auto]. }
      destruct (IH (id e0 :: seen) i Hi' (ex_intro _ e (conj He Ei))) as (e' & A & B & C).
      exists e'. cbn [In]. auto.
Qed.

(** *** Demasking *)

Lemma token_at_brace (c : char) (s : text) :
  char_eqb c lbrace = false -> token_at (c :: s) = None.
Proof.
  intro H. unfold token_at.
  rewrite (detailedPattern_brace c s H), (simplePattern_brace c s H). reflexivity.
Qed.

Lemma no_char_firstn (c : char) (n : nat) (t : text) :
  no_char c t = true -> no_char c (firstn n t) = true.
Proof.
  intro H. rewrite <- (firstn_skipn n t), no_char_app in H.
  apply andb_true_iff in H. tauto.
Qed.

Lemma no_char_skipn (c : char) (n : nat) (t : text) :
  no_char c t = true -> no_char c (skipn n t) = true.
Proof.
  intro H. rewrite <- (firstn_skipn n t), no_char_app in H.
  apply andb_true_iff in H. tauto.
Qed.

Lemma skipn_span (t : text) (pos : nat) (s : Span) :
  pos <= start s -> span_ok t s ->
  skipn pos t = firstn (start s - pos) (skipn pos t) ++ value s ++ skipn (stop s) t.
Proof.
  intros Hpos Hok.
  rewrite <- (firstn_skipn (start s - pos) (skipn pos t)) at 1. f_equal.
  rewrite skipn_skipn. replace (start s - pos + pos) with (start s) by lia.
  rewrite <- (firstn_skipn (length (value s)) (skipn (start s) t)) at 1.
  rewrite Hok, skipn_skipn. unfold stop.
  replace (length (value s) + start s) with (start s + length (value s)) by lia.
  reflexivity.
Qed.

Section RoundTrip.

Variable t : text.
Variable mapping : Mapping.
Hypothesis t_braceless : no_char lbrace t = true.

Lemma demask_build (tokens : list (Span * SensitiveEntity)) :
  forall pos,
    chain pos (map fst tokens) ->
    (forall k, In k tokens -> token_ok t mapping k) ->
    demask (build t pos tokens) mapping = skipn pos t.
Proof.
  induction tokens as [|[s e] tokens IH]; intros pos Hc Hk; cbn [build].
  - apply (replace_braceless _ token_at _ _ _ token_at_brace).
    apply no_char_skipn. exact t_braceless.
  - cbn [map fst chain] in Hc. destruct Hc as [Hpos Hc].
    destruct (Hk (s, e) (or_introl eq_refl))
      as (Hok & Hn & (Hne & Hid) & Hq & Hd & e' & Ha & Hn').
    cbn [fst snd] in *.
    unfold demask.
    rewrite (replace_plain _ token_at _ _ token_at_brace);
      [|apply no_char_firstn, no_char_skipn; exact t_braceless].
    assert (Hm : token_at (blocks_form e ++ build t (stop s) tokens)
                 = Some (Detailed {| m_fullMatch := blocks_form e; m_id := id e;
                                     m_quote := squote; m_placeholder := name e;
                                     m_after := build t (stop s) tokens |})).
    { unfold token_at, blocks_form.
      rewrite (detailedPattern_token (id e) (name e) _ squote Hne Hid eq_refl);
        [reflexivity|rewrite Hn; exact Hq|rewrite Hn; exact Hd]. }
    rewrite (replace_match _ token_at _ _ _ _ _ Hm);
      [|reflexivity|apply detailed_token_length_pos].
    cbn [substitute m_id m_placeholder]. rewrite Ha, Hn', Hn.
    fold (demask (build t (stop s) tokens) mapping).
    rewrite (IH (stop s) Hc (fun k H => Hk k (or_intror H))).
    symmetry. apply skipn_span; assumption.
Qed.

End RoundTrip.

(** *** The scenarios of the specification, with Latin letters *)

(** Scenario C: a detailed token whose identifier the mapping does not hold
    falls back to the value it embeds. *)
Example demask_fallback :
  demask (str "Dear {ID=9, TXT='Ivan'}!") (mapping_of []) = str "Dear Ivan!".
Proof. reflexivity. Qed.

(** A simple token stays as it is when the mapping does not hold its key,
    and text that a substitution produced is not scanned again. *)
Example demask_single_pass :
  demask (str "{UNKNOWN_1} and {ID=1, TXT='x'}")
    (mapping_of [{| id := str "1"; name := str "{ID=2, TXT='y'}";
                    placeholder := str "P"; category := None |}])
  = str "{UNKNOWN_1} and {ID=2, TXT='y'}".
Proof. reflexivity. Qed.

(** Scenario D: two fields masked each on its own both use the identifier
    1, and each is demasked with its own mapping. *)
Example two_fields_own_namespace :
  let ivan := {| start := 6; value := str "Ivan"; span_category := Some person |} in
  let bye := {| start := 4; value := str "Ivan"; span_category := Some person |} in
  let r1 := mask (fun _ _ => str "PERSON") [] (str "Hello Ivan") (RawSpans [ivan]) in
  let r2 := mask (fun _ _ => str "PERSON") [] (str "Bye Ivan") (RawSpans [bye]) in
  maskedText r1 = str "Hello {ID=1, TXT='Ivan'}"
  /\ maskedText r2 = str "Bye {ID=1, TXT='Ivan'}"
  /\ demask (maskedText r1) (mapping_of (entitiesFound r1)) = str "Hello Ivan"
  /\ demask (maskedText r2) (mapping_of (entitiesFound r2)) = str "Bye Ivan".
Proof. repeat split. Qed.

(** Why the dictionary may hold no numeral: the fresh identifier 1 of
    [Ivan] and the identifier 1 the dictionary gives [Petrov] collide, the
    entities found keep the first of the two, and demasking turns both tokens
    into [Ivan]. *)
Example numeral_in_dictionary :
  let dictionary := [{| id := str "1"; name := str "Petrov"; placeholder := str "P";
                        category := None |}] in
  let spans := [{| start := 0; value := str "Ivan"; span_category := None |};
                {| start := 5; value := str "Petrov"; span_category := None |}] in
  let r := mask (fun _ _ => str "L") dictionary (str "Ivan Petrov") (RawSpans spans) in
  demask (maskedText r) (mapping_of (entitiesFound r)) = str "Ivan Ivan".
Proof. reflexivity. Qed.




End EngineFacts.

(* ===================================================================== *)
(** ** More on the API client *)
(* ===================================================================== *)

(** Splits on every [match] left in the goal. *)
Ltac split_matches :=
  repeat match goal with
         | |- context [match ?x with _ => _ end] => destruct x; cbn
         end.

(** X1: when no response arrives (a network failure, the timeout), every
    operation throws an [AppError] without status; its message is the
    message of the axios error, or the literal of the interceptor when that
    message is empty, and its code is the code axios gave. *)
Theorem apiClient_no_answer (net : Net) (op : Operation) (w w' : Server net)
    (message : text) (code : option text) :
  serve net w (request_of op) = (w', NoAnswer message code) ->
  perform net op w
  = (w', Throw (AppError (JString (match message with
                                   | [] => unknown_error
                                   | _ :: _ => message
                                   end)) code None)).
Proof.
  intro Hs.
  destruct op; cbn [perform request_of] in *; unfold_client;
    rewrite Hs; cbn [settle]; unfold response_error, js_or;
    cbn [error_response error_code error_message option_map truthy];
    destruct message; reflexivity.
Qed.

Lemma apiClient_no_answer_witness :
  perform {| Server := unit;
             serve := fun w _ => (w, NoAnswer (str "timeout of 120000ms exceeded")
                                       (Some (str "ECONNABORTED")));
             refused := fun _ => ([], None) |}
    HealthCheck tt
  = (tt, Throw (AppError (JString (str "timeout of 120000ms exceeded"))
                         (Some (str "ECONNABORTED")) None)).
Proof.
  exact (apiClient_no_answer
           {| Server := unit;
              serve := fun w _ => (w, NoAnswer (str "timeout of 120000ms exceeded")
                                        (Some (str "ECONNABORTED")));
              refused := fun _ => ([], None) |}
           HealthCheck tt tt (str "timeout of 120000ms exceeded")
           (Some (str "ECONNABORTED")) eq_refl).
Defined.

(** X2: every operation sends its request once and never again: whatever the
    reply and whatever the operation returns or throws, the back end is left
    in the state in which serving that one request left it. *)
Theorem apiClient_one_request (net : Net) (op : Operation) (w : Server net) :
  fst (perform net op w) = fst (serve net w (request_of op)).
Proof.
  destruct op; cbn [perform request_of]; unfold_client;
    destruct (serve net w _) as [w1 [r|m c]]; cbn [settle];
    try reflexivity;
    (destruct (validateStatus (status r)); [|reflexivity]);
    unfold handleApiResponse;
    destruct (data r) as [| |b|n|s|items|fields]; cbn; try reflexivity;
    split_matches; reflexivity.
Qed.



(** The request behind a mutation of the dictionary. *)
Lemma mutationFn_request (net : Net) (m : DictionaryMutation) (w : Server net) :
  mutationFn net m w
  = bind (api_request net
            (request_of match m with
                        | Add d => AddSensitiveEntity d
                        | Update i d => UpdateSensitiveEntity i d
                        | Delete i => DeleteSensitiveEntity i
                        end))
         (fun response => lift (handleApiResponse response)) w.
Proof. destruct m; reflexivity. Qed.

(** X4: the operations on the dictionary hand back the body of the response
    as it is.  An envelope with [success] and [data] is not opened, and
    [deleteSensitiveEntity], declared to return nothing, returns whatever
    the server sent.  Only a [success] that is the boolean [false] makes
    them throw; any other value of [success] does not. *)
Theorem dictionary_operations_return_body (net : Net) (m : DictionaryMutation)
    (w w' : Server net) (r : Response) :
  serve net w (request_of match m with
                          | Add d => AddSensitiveEntity d
                          | Update i d => UpdateSensitiveEntity i d
                          | Delete i => DeleteSensitiveEntity i
                          end) = (w', Answered r) ->
  validateStatus (status r) = true ->
  (get_opt (data r) "success" <> JBool false <-> mutationFn net m w = (w', Ok (data r))).
Proof.
  intros Hs Hv. rewrite mutationFn_request.
  unfold bind, lift, api_request. rewrite Hs. cbn [settle]. rewrite Hv.
  unfold handleApiResponse.
  destruct (get_opt (data r) "success") as [| |[|]| | | |] eqn:E;
    try (split; [reflexivity|discriminate]).
  split; [congruence|].
  destruct (get (data r) "error"); discriminate.
Qed.

Lemma dictionary_operations_return_body_witness :
  mutationFn Backends.fixed (Delete (str "42"))
    (JObject [("success"%string, JBool true); ("data"%string, JNull)])
  = (JObject [("success"%string, JBool true); ("data"%string, JNull)],
     Ok (JObject [("success"%string, JBool true); ("data"%string, JNull)])).
Proof.
  refine (proj1 (dictionary_operations_return_body Backends.fixed (Delete (str "42"))
                   (JObject [("success"%string, JBool true); ("data"%string, JNull)])
                   (JObject [("success"%string, JBool true); ("data"%string, JNull)])
                   {| status := 200;
                      data := JObject [("success"%string, JBool true);
                                       ("data"%string, JNull)] |}
                   eq_refl eq_refl) _).
  discriminate.
Defined.

(** X5: [getSystemPrompt] and [updateSystemPrompt] read the prompt from the
    [data] field of the body only.  A body that is a bare string, which
    [processWithOpenRouter] returns as it is, gives them the empty string,
    and so does a body without a truthy [data]; what they return is never
    [undefined] or [null]. *)
Theorem system_prompt_needs_envelope (net : Net) (w w' : Server net) (r : Response)
    (prompt : text) :
  validateStatus (status r) = true ->
  nullish (data r) = false ->
  get_opt (data r) "success" <> JBool false ->
  (serve net w (request_of GetSystemPrompt) = (w', Answered r) ->
   getSystemPrompt net w
   = (w', Ok (if truthy (get_opt (data r) "data")
              then get_opt (data r) "data" else JString [])))
  /\ (serve net w (request_of (UpdateSystemPrompt prompt)) = (w', Answered r) ->
      updateSystemPrompt net prompt w
      = (w', Ok (if truthy (get_opt (data r) "data")
                 then get_opt (data r) "data" else JString [])))
  /\ (forall s, data r = JString s ->
        get_opt (data r) "data" = JUndefined
        /\ (serve net w (request_of (ProcessWithOpenRouter prompt prompt))
            = (w', Answered r) ->
            processWithOpenRouter net prompt prompt w = (w', Ok (JString s)))).
Proof.
  intros Hv Hn Hf. split; [|split].
  - intro Hs. cbn [request_of] in Hs. unfold_client. rewrite Hs. cbn [settle].
    rewrite Hv. unfold handleApiResponse, js_or.
    destruct (data r) as [| |b|n|s|items|fields]; try discriminate Hn; cbn;
      try reflexivity.
    cbn [get_opt] in Hf.
    destruct (lookup "success" fields) as [| |[|]| | | |]; cbn; try reflexivity.
    congruence.
  - intro Hs. cbn [request_of] in Hs. unfold_client. rewrite Hs. cbn [settle].
    rewrite Hv. unfold handleApiResponse, js_or.
    destruct (data r) as [| |b|n|s|items|fields]; try discriminate Hn; cbn;
      try reflexivity.
    cbn [get_opt] in Hf.
    destruct (lookup "success" fields) as [| |[|]| | | |]; cbn; try reflexivity.
    congruence.
  - intros s Hd. rewrite Hd. split; [reflexivity|].
    intro Hs. cbn [request_of] in Hs. unfold_client. rewrite Hs. cbn [settle].
    rewrite Hv. unfold handleApiResponse. rewrite Hd. reflexivity.
Qed.

Lemma system_prompt_needs_envelope_witness :
  getSystemPrompt Backends.fixed (JString (str "Be brief."))
  = (JString (str "Be brief."), Ok (JString [])).
Proof.
  exact (proj1 (system_prompt_needs_envelope Backends.fixed
                  (JString (str "Be brief.")) (JString (str "Be brief."))
                  {| status := 200; data := JString (str "Be brief.") |} []
                  eq_refl eq_refl ltac:(discriminate)) eq_refl).
Defined.

(** X6: an operation that reads a field of the body throws a [TypeError],
    not an [AppError], when a response with an accepted status has the body
    [null]: [maskText], [getSystemPrompt] and [processWithOpenRouter]. *)
Theorem null_body_TypeError (net : Net) (w w' : Server net) (r : Response)
    (d : TextProcessingInput) (t p : text) :
  validateStatus (status r) = true ->
  data r = JNull ->
  (serve net w (request_of (MaskText d)) = (w', Answered r) ->
   maskText net d w = (w', Throw TypeError))
  /\ (serve net w (request_of GetSystemPrompt) = (w', Answered r) ->
      getSystemPrompt net w = (w', Throw TypeError))
  /\ (serve net w (request_of (ProcessWithOpenRouter t p)) = (w', Answered r) ->
      processWithOpenRouter net t p w = (w', Throw TypeError)).
Proof.
  intros Hv Hd.
  repeat split; intro Hs; cbn [request_of] in Hs; unfold_client; rewrite Hs;
    cbn [settle]; rewrite Hv; unfold handleApiResponse; rewrite Hd; reflexivity.
Qed.

Lemma null_body_TypeError_witness :
  maskText Backends.fixed {| text_ := str "x"; systemPrompt := None |} JNull
  = (JNull, Throw TypeError).
Proof.
  exact (proj1 (null_body_TypeError Backends.fixed JNull JNull
                  {| status := 200; data := JNull |}
                  {| text_ := str "x"; systemPrompt := None |} [] []
                  eq_refl eq_refl) eq_refl).
Defined.

(* ===================================================================== *)
(** ** More on the hooks *)
(* ===================================================================== *)

Section HookMoreFacts.

Variable net : Net.

(** X7: a mutation of the dictionary whose API call fails leaves the query
    cache as it was (nothing is invalidated), raises one destructive toast
    that carries the message of the error, and rejects with that error. *)
Theorem failed_mutation_keeps_cache (m : DictionaryMutation) (w : World net)
    (s' : Server net) (e : JsError) :
  mutationFn net m (server w) = (s', Throw e) ->
  mutate m w
  = ({| server := s'; clock := clock w; cache := cache w;
        toasts := toasts w ++ [{| title := HooksMore.error_title m;
                                  description := message_of e;
                                  variant := destructive |}] |},
     Throw e).
Proof.
  intro Hm.
  destruct m as [d|i d|i]; cbn [mutationFn mutate HooksMore.error_title] in *;
    unfold useAddSensitiveEntity, useUpdateSensitiveEntity, useDeleteSensitiveEntity,
      mutateAsync, api, error_toast, toast;
    cbn [fst snd]; rewrite Hm; reflexivity.
Qed.

Lemma find_query_invalidated (k0 k : QueryKey) (c : list (QueryKey * Query)) :
  find_query k (map (fun e => if key_prefix k0 (fst e)
                               then (fst e, invalidate (snd e)) else e) c)
  = if key_prefix k0 k then option_map invalidate (find_query k c)
    else find_query k c.
Proof.
  induction c as [|[k' q] c IH]; cbn [map find_query fst snd].
  - destruct (key_prefix k0 k); reflexivity.
  - destruct (key_prefix k0 k') eqn:E'; cbn [find_query];
      destruct (list_eq_dec string_dec k k') as [->|Hne].
    + rewrite E'. reflexivity.
    + exact IH.
    + rewrite E'. reflexivity.
    + exact IH.
Qed.

Lemma find_query_store (k : QueryKey) (q : Query) (c : list (QueryKey * Query)) :
  find_query k (store_query k q c) = Some q.
Proof.
  induction c as [|[k' q'] c IH]; cbn [store_query find_query].
  - destruct (list_eq_dec string_dec k k); [reflexivity|congruence].
  - destruct (list_eq_dec string_dec k k') as [E|E]; cbn [find_query].
    + destruct (list_eq_dec string_dec k k); [reflexivity|congruence].
    + destruct (list_eq_dec string_dec k k'); [contradiction|exact IH].
Qed.

Lemma update_prompt_success (prompt : text) (w : World net) (s' : Server net)
    (a : JsValue) :
  updateSystemPrompt net prompt (server w) = (s', Ok a) ->
  cache (fst (HooksMore.useUpdateSystemPrompt prompt w))
  = map (fun e => if key_prefix systemPromptKey (fst e)
                  then (fst e, invalidate (snd e)) else e) (cache w).
Proof.
  intro Hm.
  unfold HooksMore.useUpdateSystemPrompt, mutateAsync, api, bind, invalidateQueries, toast.
  cbn [fst snd]. rewrite Hm. reflexivity.
Qed.

End HookMoreFacts.

Lemma failed_mutation_keeps_cache_witness :
  cache (fst (mutate (Delete (str "42")) Backends.fresh_world))
  = cache Backends.fresh_world.
Proof.
  rewrite (failed_mutation_keeps_cache Backends.dictionary (Delete (str "42"))
             Backends.fresh_world _ _ eq_refl).
  reflexivity.
Defined.

(** X8: invalidation goes by key.  A successful mutation of the dictionary
    leaves every cached query whose key does not start with
    [sensitive-entities] as it was, the cached system prompt among them, and
    a successful update of the system prompt leaves the cached dictionary as
    it was. *)
Theorem invalidation_by_key (net : Net) (w : World net) (s' : Server net)
    (a : JsValue) :
  (forall m k, mutationFn net m (server w) = (s', Ok a) ->
               key_prefix sensitiveEntities k = false ->
               find_query k (cache (fst (mutate m w))) = find_query k (cache w))
  /\ (forall prompt, updateSystemPrompt net prompt (server w) = (s', Ok a) ->
        find_query sensitiveEntities
          (cache (fst (HooksMore.useUpdateSystemPrompt prompt w)))
        = find_query sensitiveEntities (cache w)).
Proof.
  split.
  - intros m k Hm Hk.
    destruct (mutate_success net m w s' a Hm) as [_ Hc].
    rewrite Hc, find_query_invalidated, Hk. reflexivity.
  - intros prompt Hm.
    rewrite (update_prompt_success net prompt w s' a Hm), find_query_invalidated.
    reflexivity.
Qed.

Lemma invalidation_by_key_witness :
  find_query systemPromptKey
    (cache (fst (mutate (Add Backends.ivan) Backends.fresh_world)))
  = find_query systemPromptKey (cache Backends.fresh_world).
Proof.
  exact (proj1 (invalidation_by_key Backends.dictionary Backends.fresh_world
                  [json_of_input Backends.ivan] (json_of_input Backends.ivan))
           (Add Backends.ivan) systemPromptKey eq_refl eq_refl).
Defined.



(* ===================================================================== *)
(** ** More on masking two fields *)
(* ===================================================================== *)

(** X10: when both fields are empty or hold white space only,
    [handleMaskText] makes no call to the mask mutation, leaves the state as
    it is and raises one destructive toast. *)
Theorem handleMaskText_blank
    (mutateAsync : nat -> TextProcessingInput -> Settled MaskingResult)
    (appState : AppState) :
  trim_truthy (queryText appState) = false ->
  trim_truthy (contextText appState) = false ->
  handleMaskText mutateAsync appState
  = (appState, [{| title := NothingToMask; description := JUndefined;
                   variant := destructive |}])
  /\ forall other, handleMaskText other appState = handleMaskText mutateAsync appState.
Proof.
  intros Hq Hc. unfold handleMaskText. rewrite Hq, Hc. cbn [negb andb].
  split; reflexivity.
Qed.

Lemma handleMaskText_blank_witness :
  handleMaskText Backends.second_call_fails
    {| queryText := str "  "; contextText := [10%N; 9%N];
       maskedQueryText := JString (str "old"); maskedContextText := JString [];
       maskingPrompt := []; error := None |}
  = ({| queryText := str "  "; contextText := [10%N; 9%N];
        maskedQueryText := JString (str "old"); maskedContextText := JString [];
        maskingPrompt := []; error := None |},
     [{| title := NothingToMask; description := JUndefined; variant := destructive |}]).
Proof.
  exact (proj1 (handleMaskText_blank Backends.second_call_fails
                  {| queryText := str "  "; contextText := [10%N; 9%N];
                     maskedQueryText := JString (str "old");
                     maskedContextText := JString [];
                     maskingPrompt := []; error := None |} eq_refl eq_refl)).
Defined.



(* ===================================================================== *)
(** ** More on lib/utils.ts *)
(* ===================================================================== *)

(** X12: a text without an opening brace holds no token: [renderMaskedHtml]
    returns it unchanged in both modes, and so does
    [extractPlaceholdersFromMasked]. *)
Theorem braceless_text_unchanged (t : text) (mode : Mode) :
  no_char lbrace t = true ->
  renderMaskedHtml t mode = t /\ extractPlaceholdersFromMasked t = t.
Proof.
  intro H. split.
  - unfold renderMaskedHtml, render_detailed, render_simple.
    rewrite (replace_braceless _ detailedPattern _ _ t detailedPattern_brace H).
    apply (replace_braceless _ simplePattern _ _ t simplePattern_brace H).
  - apply (replace_braceless _ detailedPattern _ _ t detailedPattern_brace H).
Qed.

Lemma braceless_text_unchanged_witness :
  renderMaskedHtml (str "Hello, <b>world</b>") placeholders = str "Hello, <b>world</b>"
  /\ extractPlaceholdersFromMasked (str "Hello, <b>world</b>") = str "Hello, <b>world</b>".
Proof.
  exact (braceless_text_unchanged (str "Hello, <b>world</b>") placeholders eq_refl).
Defined.

(** Brings concatenations to the form of a list that ends in a variable. *)
Ltac norm_app :=
  change (str "{ID=") with [lbrace; 73%N; 68%N; 61%N];
  change (str "TXT=") with [84%N; 88%N; 84%N; 61%N];
  repeat first [rewrite <- app_assoc | progress cbn [app]].

(** What [closing] accepts: the quote, white space, the closing brace. *)
Lemma closing_Some (q : char) (s tail rest : text) :
  closing q s = Some (tail, rest) ->
  s = tail ++ rest
  /\ exists ws, tail = q :: ws ++ [rbrace] /\ forallb white_space ws = true.
Proof.
  unfold closing. destruct s as [|c s]; [discriminate|].
  destruct (char_eqb c q) eqn:Ec; [|discriminate].
  destruct (span_of white_space s) as [ws r] eqn:Es.
  destruct r as [|b r]; [discriminate|].
  destruct (char_eqb b rbrace) eqn:Eb; [|discriminate].
  intro H. injection H as <- <-.
  apply char_eqb_eq in Ec, Eb. subst c b.
  destruct (span_of_spec _ _ _ _ Es) as (-> & Hws & _).
  split.
  - cbn. rewrite <- app_assoc. reflexivity.
  - exists ws. auto.
Qed.

(** What the lazy group takes: code units other than line terminators, up
    to the first place where the quote, white space and the closing brace
    follow. *)
Lemma lazy_value_Some (q : char) (s : text) :
  forall v tail rest,
    lazy_value q s = Some (v, tail, rest) ->
    s = v ++ tail ++ rest
    /\ forallb dot v = true
    /\ closing q (tail ++ rest) = Some (tail, rest)
    /\ forall a b, v = a ++ b -> b <> [] -> closing q (b ++ tail ++ rest) = None.
Proof.
  induction s as [|c s IH]; intros v tail rest H; cbn [lazy_value] in H.
  - destruct (closing q []) as [[t r]|] eqn:Ec; [discriminate Ec|discriminate H].
  - destruct (closing q (c :: s)) as [[t r]|] eqn:Ec.
    + injection H as <- <- <-.
      destruct (closing_Some _ _ _ _ Ec) as [E _].
      cbn [app]. rewrite <- E.
      split; [reflexivity|]. split; [reflexivity|]. split; [exact Ec|].
      intros a b Hab Hb. destruct a; destruct b; try discriminate. congruence.
    + destruct (dot c) eqn:Hd; [|discriminate H].
      destruct (lazy_value q s) as [[[v' t'] r']|] eqn:El; [|discriminate H].
      injection H as <- <- <-.
      destruct (IH _ _ _ eq_refl) as (E & Hv & Hc & Hmin).
      cbn [app forallb]. rewrite Hd, Hv. subst s.
      split; [reflexivity|]. split; [reflexivity|]. split; [exact Hc|].
      intros a b Hab Hb. destruct a as [|x a]; cbn [app] in Hab.
      * subst b. exact Ec.
      * injection Hab as _ Hab. apply (Hmin a b Hab Hb).
Qed.

(** X13: every match of [detailedPattern] has the shape of the detailed
    token: it is the head of the subject and reads [{ID=], an identifier that
    is not empty and holds no comma and no closing brace, a comma, white
    space, [TXT=], a single or double quote, a value without line
    terminators, the same quote, white space and [}].  The value is the
    shortest possible: the token ends at the first place in the value where
    the quote followed by white space and [}] stands. *)
Theorem detailedPattern_sound (s : text) (m : DetailedMatch) :
  detailedPattern s = Some m ->
  s = m_fullMatch m ++ m_after m
  /\ (exists ws1 ws2,
        m_fullMatch m = str "{ID=" ++ m_id m ++ [comma] ++ ws1 ++ str "TXT="
                          ++ [m_quote m] ++ m_placeholder m ++ [m_quote m]
                          ++ ws2 ++ [rbrace]
        /\ forallb white_space ws1 = true /\ forallb white_space ws2 = true
        /\ forall a b, m_placeholder m = a ++ b -> b <> [] ->
             closing (m_quote m) (b ++ [m_quote m] ++ ws2 ++ [rbrace] ++ m_after m) = None)
  /\ m_id m <> [] /\ forallb id_char (m_id m) = true
  /\ quote_char (m_quote m) = true
  /\ forallb dot (m_placeholder m) = true.
Proof.
  unfold detailedPattern. intro H.
  destruct (strip_prefix (str "{ID=") s) as [s1|] eqn:E1; [|discriminate].
  apply strip_prefix_Some in E1.
  destruct (span_of id_char s1) as [i s2] eqn:E2.
  destruct (span_of_spec _ _ _ _ E2) as (-> & Hid & _).
  destruct i as [|i0 i]; [discriminate|].
  destruct s2 as [|c s3]; [discriminate|].
  destruct (char_eqb c comma) eqn:Ec; [|discriminate].
  apply char_eqb_eq in Ec. subst c.
  destruct (span_of white_space s3) as [ws s4] eqn:E3.
  destruct (span_of_spec _ _ _ _ E3) as (-> & Hws & _).
  destruct (strip_prefix (str "TXT=") s4) as [[|q s5]|] eqn:E4; try discriminate.
  apply strip_prefix_Some in E4. subst s4.
  destruct (quote_char q) eqn:Hq; [|discriminate].
  destruct (lazy_value q s5) as [[[v tail] rest]|] eqn:E5; [|discriminate].
  injection H as <-. cbn [m_fullMatch m_id m_quote m_placeholder m_after].
  destruct (lazy_value_Some _ _ _ _ _ E5) as (-> & Hv & Hc & Hmin).
  destruct (closing_Some _ _ _ _ Hc) as (_ & ws2 & -> & Hws2).
  subst s. split.
  - norm_app. reflexivity.
  - split; [|repeat split; solve [discriminate | assumption]].
    exists ws, ws2. split; [norm_app; reflexivity|].
    split; [exact Hws|]. split; [exact Hws2|].
    intros a b Hab Hb. specialize (Hmin a b Hab Hb).
    revert Hmin. norm_app. exact (fun H => H).
Qed.

Lemma detailedPattern_sound_witness :
  exists ws1 ws2,
    str "{ID=7,  TXT='it's' }"
    = str "{ID=" ++ str "7" ++ [comma] ++ ws1 ++ str "TXT=" ++ [squote]
        ++ str "it's" ++ [squote] ++ ws2 ++ [rbrace]
    /\ forallb white_space ws1 = true /\ forallb white_space ws2 = true
    /\ forall a b, str "it's" = a ++ b -> b <> [] ->
         closing squote (b ++ [squote] ++ ws2 ++ [rbrace] ++ str " tail") = None.
Proof.
  exact (proj1 (proj2 (detailedPattern_sound (str "{ID=7,  TXT='it's' } tail")
                         {| m_fullMatch := str "{ID=7,  TXT='it's' }"; m_id := str "7";
                            m_quote := squote; m_placeholder := str "it's";
                            m_after := str " tail" |} eq_refl))).
Defined.

(** *** A simple token in plain text *)

Lemma simple_tail_not_lbrace (c : char) : simple_tail c = true -> char_eqb c lbrace = false.
Proof.
  unfold simple_tail, upper, digit, between, char_eqb, lbrace, underscore.
  intro H. apply N.eqb_neq. intro E. subst c. discriminate H.
Qed.

Lemma simple_head_tail (c : char) : simple_head c = true -> simple_tail c = true.
Proof.
  unfold simple_head, simple_tail. intro H.
  apply orb_true_iff in H as [H|H]; rewrite H; [reflexivity|apply orb_true_r].
Qed.

Lemma simple_run_braceless (run : text) :
  forallb simple_tail run = true -> no_char lbrace run = true.
Proof.
  induction run as [|c run IH]; cbn [forallb no_char]; [reflexivity|].
  intro H. apply andb_true_iff in H as [Hc H].
  rewrite (simple_tail_not_lbrace c Hc). cbn [negb andb]. apply IH. exact H.
Qed.

(** A simple token is not the head of a detailed one: the fourth code unit
    of [{ID=] is not in the class of a simple token. *)
Lemma detailedPattern_simple (s post : text) :
  code_simple s -> detailedPattern (s ++ post) = None.
Proof.
  intros (h & run & -> & Hh & Hrun). unfold detailedPattern.
  change (str "{ID=") with [lbrace; 73%N; 68%N; 61%N].
  cbn [app strip_prefix]. rewrite char_eqb_refl.
  destruct (char_eqb 73%N h); [|reflexivity].
  destruct run as [|c run]; cbn [app strip_prefix]; [reflexivity|].
  destruct (char_eqb 68%N c); [|reflexivity].
  destruct run as [|c' run]; cbn [app strip_prefix]; [reflexivity|].
  cbn [forallb] in Hrun. apply andb_true_iff in Hrun as [_ Hrun].
  apply andb_true_iff in Hrun as [Hc' _].
  destruct (char_eqb 61%N c') eqn:E; [|reflexivity].
  apply char_eqb_eq in E. subst c'. discriminate Hc'.
Qed.

Lemma indexOf_from_plain (needle' pre rest r : text) (k : Z) :
  no_char lbrace pre = true ->
  strip_prefix (lbrace :: needle') rest = Some r ->
  indexOf_from k (lbrace :: needle') (pre ++ rest) = (k + Z.of_nat (length pre))%Z.
Proof.
  intros H Hr. revert k H; induction pre as [|c pre IH]; intros k H.
  - cbn [app length]. destruct rest as [|x rest]; [discriminate Hr|].
    cbn [indexOf_from]. rewrite Hr. lia.
  - cbn [no_char forallb] in H. apply andb_true_iff in H as [Hc H].
    apply negb_true_iff in Hc. cbn [app indexOf_from strip_prefix].
    rewrite char_eqb_sym, Hc. rewrite (IH (k + 1)%Z H). cbn [length]. lia.
Qed.

Lemma lastIndexOf_from_absent (x : char) (needle' s : text) (k : Z) :
  no_char x s = true -> lastIndexOf_from k (x :: needle') s = (-1)%Z.
Proof.
  revert k; induction s as [|c s IH]; intros k H; cbn [lastIndexOf_from strip_prefix].
  - reflexivity.
  - cbn [no_char forallb] in H. apply andb_true_iff in H as [Hc H].
    apply negb_true_iff in Hc. rewrite char_eqb_sym, Hc, (IH (k + 1)%Z H).
    reflexivity.
Qed.

Lemma substring_prefix (pre rest : text) :
  substring (pre ++ rest) 0 (Z.of_nat (length pre)) = pre.
Proof.
  unfold substring. rewrite length_app.
  replace (Z.to_nat (Z.min (Z.max 0 0) (Z.of_nat (length pre + length rest)))) with 0 by lia.
  replace (Z.to_nat (Z.min (Z.max (Z.of_nat (length pre)) 0)
                       (Z.of_nat (length pre + length rest))))
    with (length pre) by lia.
  cbv zeta. rewrite Nat.min_0_l, Nat.max_0_l, Nat.sub_0_r. cbn [skipn].
  rewrite firstn_app, firstn_all, Nat.sub_diag. cbn. apply app_nil_r.
Qed.

(** X14: a simple token that stands in text without braces, after text that
    also holds no [<], is wrapped in exactly one mask-chip span, in both
    modes, and the text around it is unchanged. *)
Theorem renderMaskedHtml_simple_token (pre s post : text) (mode : Mode) :
  code_simple s ->
  no_char lbrace pre = true -> no_char 60%N pre = true ->
  no_char lbrace post = true ->
  renderMaskedHtml (pre ++ s ++ post) mode = pre ++ chip s ++ post.
Proof.
  intros Hs Hpre Hlt Hpost.
  assert (Hbody : exists body, s = lbrace :: body /\ no_char lbrace body = true).
  { destruct Hs as (h & run & -> & Hh & Hrun). eexists. split; [reflexivity|].
    cbn [no_char forallb].
    rewrite (simple_tail_not_lbrace h (simple_head_tail h Hh)). cbn [negb andb].
    fold (no_char lbrace (run ++ [rbrace])).
    rewrite no_char_app, (simple_run_braceless run Hrun). reflexivity. }
  destruct Hbody as (body & Es & Hbody).
  assert (H1 : render_detailed mode (pre ++ s ++ post) = pre ++ s ++ post).
  { unfold render_detailed.
    rewrite (replace_plain _ detailedPattern _ _ detailedPattern_brace _ _ Hpre).
    f_equal. pose proof (detailedPattern_simple s post Hs) as Hn.
    subst s. unfold replace. cbn [app replace_from] in *. rewrite Hn. f_equal.
    apply (replace_braceless _ detailedPattern _ _ _ detailedPattern_brace).
    rewrite no_char_app, Hbody, Hpost. reflexivity. }
  unfold renderMaskedHtml. rewrite H1. unfold render_simple.
  rewrite (replace_plain _ simplePattern _ _ simplePattern_brace _ _ Hpre).
  f_equal.
  rewrite (replace_match _ simplePattern _ _ s post (s, post)
             (simplePattern_code_simple s post Hs) eq_refl);
    [|rewrite Es; discriminate].
  rewrite (replace_braceless _ simplePattern _ _ post simplePattern_brace Hpost).
  f_equal.
  unfold simple_callback. cbn [fst].
  assert (Hi : indexOf (pre ++ s ++ post) s = Z.of_nat (length pre)).
  { unfold indexOf. rewrite Es.
    apply (indexOf_from_plain body pre ((lbrace :: body) ++ post) post 0 Hpre).
    apply strip_prefix_app. }
  rewrite Hi, substring_prefix.
  unfold lastIndexOf.
  change span_open with (60%N :: tl span_open).
  change span_close with (60%N :: tl span_close).
  rewrite !(lastIndexOf_from_absent 60%N _ pre 0 Hlt). reflexivity.
Qed.

Lemma renderMaskedHtml_simple_token_witness :
  renderMaskedHtml (str "Dear " ++ str "{PERSON_NAME_1}" ++ str ", hello") blocks
  = str "Dear " ++ chip (str "{PERSON_NAME_1}") ++ str ", hello".
Proof.
  apply (renderMaskedHtml_simple_token (str "Dear ") (str "{PERSON_NAME_1}")
           (str ", hello") blocks); try reflexivity.
  exists 80%N, (str "ERSON_NAME_1"). repeat split.
Defined.

Module UtilsMoreFacts.

Import UtilsMore.

(** *** [truncateText] *)

Lemma substring_from_0 (t : text) (n : Z) :
  substring t 0 n = firstn (Z.to_nat n) t.
Proof.
  unfold substring. cbv zeta.
  replace (Z.to_nat (Z.min (Z.max 0 0) (Z.of_nat (length t)))) with 0 by lia.
  rewrite Nat.min_0_l, Nat.max_0_l, Nat.sub_0_r. cbn [skipn].
  destruct (Z_le_gt_dec n (Z.of_nat (length t))) as [H|H].
  - f_equal. lia.
  - rewrite !firstn_all2 by lia. reflexivity.
Qed.

(** X15: [truncateText] returns a text that is at most [maxLength] long as
    it is.  A longer text is cut to its first [maxLength] code units and
    three dots are added, so that the result is three longer than
    [maxLength]; a negative [maxLength] counts as 0.  In both cases the first
    [maxLength] code units of the result are those of the text. *)
Theorem truncateText_spec (t : text) (maxLength : Z) :
  (Z.of_nat (length (truncateText t maxLength)) <= Z.max maxLength 0 + 3)%Z
  /\ firstn (Z.to_nat maxLength) (truncateText t maxLength)
     = firstn (Z.to_nat maxLength) t
  /\ (if (Z.of_nat (length t) <=? maxLength)%Z
      then truncateText t maxLength = t
      else truncateText t maxLength = firstn (Z.to_nat maxLength) t ++ str "..."
           /\ Z.of_nat (length (truncateText t maxLength)) = (Z.max maxLength 0 + 3)%Z).
Proof.
  unfold truncateText. rewrite substring_from_0.
  destruct (Z.of_nat (length t) <=? maxLength)%Z eqn:E.
  - apply Z.leb_le in E. repeat split. lia.
  - apply Z.leb_gt in E.
    assert (Hl : length (firstn (Z.to_nat maxLength) t) = Z.to_nat maxLength).
    { apply firstn_length_le. lia. }
    assert (Hlen : Z.of_nat (length (firstn (Z.to_nat maxLength) t ++ str "..."))
                   = (Z.max maxLength 0 + 3)%Z).
    { rewrite length_app, Hl. cbn [length str]. change (length (str "...")) with 3. lia. }
    split; [lia|]. split; [|split; [reflexivity|exact Hlen]].
    rewrite firstn_app, Hl, Nat.sub_diag, firstn_firstn, Nat.min_id. cbn [firstn].
    apply app_nil_r.
Qed.

(** *** [isValidPhone] *)

Lemma digitsOnly_filter (phone : text) :
  replace nonDigit (fun _ => 1) (fun _ => []) phone = filter digit phone.
Proof.
  unfold replace. induction phone as [|c phone IH]; [reflexivity|].
  cbn [replace_from nonDigit filter]. destruct (digit c); cbn [app pred].
  - f_equal. exact IH.
  - exact IH.
Qed.

(** X16: [isValidPhone] looks only at how many digits 0..9 the text holds:
    it accepts exactly the texts with 9 to 15 of them, so that adding or
    removing any other character, letters included, never changes the
    answer.  The expression [phoneRegex] declared in it takes no part. *)
Theorem isValidPhone_counts_digits (phone : text) :
  isValidPhone phone
  = (9 <=? length (filter digit phone)) && (length (filter digit phone) <=? 15)
  /\ forall a b c, phone = a ++ b -> digit c = false ->
       isValidPhone (a ++ c :: b) = isValidPhone phone.
Proof.
  split.
  - unfold isValidPhone. rewrite digitsOnly_filter. reflexivity.
  - intros a b c -> Hc. unfold isValidPhone. rewrite !digitsOnly_filter.
    rewrite !filter_app. cbn [filter]. rewrite Hc. reflexivity.
Qed.

Lemma isValidPhone_counts_digits_witness :
  isValidPhone (str "call" ++ 45%N :: str "123456789") = isValidPhone (str "call123456789").
Proof.
  exact (proj2 (isValidPhone_counts_digits (str "call123456789"))
           (str "call") (str "123456789") 45%N eq_refl eq_refl).
Defined.

(** *** [isValidEmail] *)

Import Re.

Lemma lang_seq_inv (a b : re) (s : text) :
  lang (Seq a b) s -> exists s1 s2, s = s1 ++ s2 /\ lang a s1 /\ lang b s2.
Proof. intro H. inversion H; subst. eauto. Qed.

Lemma lang_class_inv (p : char -> bool) (s : text) :
  lang (Class p) s -> exists c, s = [c] /\ p c = true.
Proof. intro H. inversion H; subst. eauto. Qed.

Lemma lang_alt_inv (a b : re) (s : text) : lang (Alt a b) s -> lang a s \/ lang b s.
Proof. intro H. inversion H; subst; auto. Qed.

Lemma lang_eps_inv (s : text) : lang Eps s -> s = [].
Proof. intro H. inversion H. reflexivity. Qed.

Lemma lang_void_inv (s : text) : lang Void s -> False.
Proof. intro H. inversion H. Qed.

Lemma nullable_lang (r : re) : nullable r = true <-> lang r [].
Proof.
  induction r as [| |p|a IHa b IHb|a IHa b IHb|a IHa]; cbn [nullable].
  - split; [discriminate|]. intro H. destruct (lang_void_inv _ H).
  - split; [constructor|reflexivity].
  - split; [discriminate|]. intro H.
    destruct (lang_class_inv _ _ H) as (c & E & _). discriminate E.
  - rewrite andb_true_iff, IHa, IHb. split.
    + intros [Ha Hb]. apply (@lang_seq a b [] [] Ha Hb).
    + intro H. destruct (lang_seq_inv _ _ _ H) as (s1 & s2 & E & Ha & Hb).
      symmetry in E. apply app_eq_nil in E as [-> ->]. auto.
  - rewrite orb_true_iff, IHa, IHb. split.
    + intros [H|H]; [apply lang_alt_l|apply lang_alt_r]; exact H.
    + apply lang_alt_inv.
  - split; [constructor|reflexivity].
Qed.

(** A non-empty text of a star starts with a non-empty text of its body. *)
Lemma lang_star_cons_inv (a : re) (s : text) :
  lang (Star a) s ->
  forall c s', s = c :: s' ->
    exists s1 s2, s' = s1 ++ s2 /\ lang a (c :: s1) /\ lang (Star a) s2.
Proof.
  intro H. remember (Star a) as r eqn:Er.
  induction H as [| | | | | a0 | a0 s1 s2 H1 _ H2 IH2]; try discriminate.
  injection Er as ->. intros c s' E. destruct s1 as [|x s1]; cbn [app] in E.
  - apply (IH2 eq_refl c s' E).
  - injection E as -> <-. exists s1, s2. auto.
Qed.

Lemma deriv_lang (r : re) : forall c s, lang (deriv c r) s <-> lang r (c :: s).
Proof.
  induction r as [| |p|a IHa b IHb|a IHa b IHb|a IHa]; intros c s; cbn [deriv].
  - split; intro H; destruct (lang_void_inv _ H).
  - split; intro H; [destruct (lang_void_inv _ H)|].
    apply lang_eps_inv in H. discriminate H.
  - destruct (p c) eqn:Hp; split; intro H.
    + apply lang_eps_inv in H. subst s. constructor. exact Hp.
    + destruct (lang_class_inv _ _ H) as (x & E & _). injection E as _ ->. constructor.
    + destruct (lang_void_inv _ H).
    + destruct (lang_class_inv _ _ H) as (x & E & Hx). injection E as -> _. congruence.
  - assert (Hseq : lang (Seq (deriv c a) b) s -> lang (Seq a b) (c :: s)).
    { intro H. destruct (lang_seq_inv _ _ _ H) as (s1 & s2 & -> & Ha & Hb).
      apply IHa in Ha. apply (@lang_seq a b (c :: s1) s2 Ha Hb). }
    assert (Hinv : lang (Seq a b) (c :: s) ->
              (lang a [] /\ lang b (c :: s)) \/ lang (Seq (deriv c a) b) s).
    { intro H. destruct (lang_seq_inv _ _ _ H) as (s1 & s2 & E & Ha & Hb).
      destruct s1 as [|x s1]; cbn [app] in E.
      - subst s2. left. auto.
      - injection E as <- ->. right. apply IHa in Ha. constructor; assumption. }
    destruct (nullable a) eqn:Hn.
    + split.
      * intro H. apply lang_alt_inv in H as [H|H]; [apply Hseq; exact H|].
        apply nullable_lang in Hn. apply IHb in H.
        apply (@lang_seq a b [] (c :: s) Hn H).
      * intro H. destruct (Hinv H) as [[_ Hb]|H'].
        -- apply lang_alt_r. apply IHb. exact Hb.
        -- apply lang_alt_l. exact H'.
    + split; [exact Hseq|].
      intro H. destruct (Hinv H) as [[Ha _]|H']; [|exact H'].
      apply nullable_lang in Ha. congruence.
  - split; intro H.
    + apply lang_alt_inv in H as [H|H];
        [apply lang_alt_l; apply IHa|apply lang_alt_r; apply IHb]; exact H.
    + apply lang_alt_inv in H as [H|H];
        [apply lang_alt_l; apply IHa|apply lang_alt_r; apply IHb]; exact H.
  - split.
    + intro H. destruct (lang_seq_inv _ _ _ H) as (s1 & s2 & -> & Ha & Hb).
      apply IHa in Ha. apply (@lang_star_cons a (c :: s1) s2 Ha Hb).
    + intro H.
      destruct (lang_star_cons_inv a (c :: s) H c s eq_refl) as (s1 & s2 & -> & Ha & Hs).
      apply IHa in Ha. constructor; assumption.
Qed.

(** [test] decides the language of the expression. *)
Lemma test_lang (s : text) : forall r, test r s = true <-> lang r s.
Proof.
  induction s as [|c s IH]; intro r; cbn [test].
  - apply nullable_lang.
  - rewrite IH. apply deriv_lang.
Qed.

Lemma lang_star_class (p : char -> bool) (s : text) :
  lang (Star (Class p)) s <-> forallb p s = true.
Proof.
  split.
  - intro H. remember (Star (Class p)) as r eqn:Er.
    induction H as [| | | | | a0 | a0 s1 s2 H1 _ H2 IH2]; try discriminate.
    + reflexivity.
    + injection Er as ->. destruct (lang_class_inv _ _ H1) as (c & -> & Hc).
      cbn [app forallb]. rewrite Hc. apply IH2. reflexivity.
  - induction s as [|c s IH]; cbn [forallb]; intro H; [constructor|].
    apply andb_true_iff in H as [Hc H].
    apply (@lang_star_cons (Class p) [c] s); [constructor; exact Hc|auto].
Qed.

Lemma lang_plus_class (p : char -> bool) (s : text) :
  lang (Plus (Class p)) s <-> s <> [] /\ forallb p s = true.
Proof.
  unfold Plus. split.
  - intro H. destruct (lang_seq_inv _ _ _ H) as (s1 & s2 & -> & Ha & Hb).
    destruct (lang_class_inv _ _ Ha) as (c & -> & Hc).
    apply lang_star_class in Hb. cbn [app forallb].
    rewrite Hc, Hb. split; [discriminate|reflexivity].
  - intros [Hne H]. destruct s as [|c s]; [congruence|].
    cbn [forallb] in H. apply andb_true_iff in H as [Hc H].
    apply (@lang_seq (Class p) (Star (Class p)) [c] s);
      [constructor; exact Hc|apply lang_star_class; exact H].
Qed.

Lemma lang_char (x : char) (s : text) :
  lang (Class (fun c => char_eqb c x)) s <-> s = [x].
Proof.
  split.
  - intro H. destruct (lang_class_inv _ _ H) as (c & -> & Hc).
    apply char_eqb_eq in Hc. congruence.
  - intros ->. constructor. apply char_eqb_refl.
Qed.

(** X17: [isValidEmail] accepts exactly the texts of the form
    [local@domain.tail] in which the three parts are not empty and hold
    neither white space nor [@]: one [@] only, no white space anywhere, and
    after the [@] a dot that has text on both sides. *)
Theorem isValidEmail_shape (email : text) :
  isValidEmail email = true
  <-> exists local domain tail,
        email = local ++ [64%N] ++ domain ++ [46%N] ++ tail
        /\ local <> [] /\ domain <> [] /\ tail <> []
        /\ forallb email_char local = true
        /\ forallb email_char domain = true
        /\ forallb email_char tail = true.
Proof.
  unfold isValidEmail, emailRegex. rewrite test_lang. split.
  - intro H.
    destruct (lang_seq_inv _ _ _ H) as (l & r1 & -> & Hl & H1).
    destruct (lang_seq_inv _ _ _ H1) as (at_ & r2 & -> & Hat & H2).
    destruct (lang_seq_inv _ _ _ H2) as (d & r3 & -> & Hd & H3).
    destruct (lang_seq_inv _ _ _ H3) as (dot_ & tl_ & -> & Hdot & Ht).
    apply lang_plus_class in Hl, Hd, Ht.
    apply lang_char in Hat, Hdot. subst.
    exists l, d, tl_. tauto.
  - intros (l & d & tl_ & -> & Hl & Hd & Ht & Fl & Fd & Ft).
    apply lang_seq; [apply lang_plus_class; auto|].
    apply lang_seq; [apply lang_char; reflexivity|].
    apply lang_seq; [apply lang_plus_class; auto|].
    apply lang_seq; [apply lang_char; reflexivity|].
    apply lang_plus_class; auto.
Qed.

(** *** [debounce] and [throttle] *)

Lemma calls_app {A} (tr tr' : list (Event A)) : calls (tr ++ tr') = calls tr ++ calls tr'.
Proof.
  induction tr as [|[a|t] tr IH]; cbn [calls app]; rewrite ?IH; reflexivity.
Qed.

Lemma last_call_snoc {A} (tr : list (Event A)) (a : A) :
  last_call (tr ++ [Called a]) = Some a.
Proof.
  unfold last_call. rewrite calls_app, rev_app_distr. reflexivity.
Qed.

Lemma last_call_fired {A} (tr : list (Event A)) (t : nat) :
  last_call (tr ++ [Fired t]) = last_call tr.
Proof.
  unfold last_call. rewrite calls_app. cbn [calls]. rewrite app_nil_r. reflexivity.
Qed.

Lemma debounce_run_snoc {A} (tr : list (Event A)) (e : Event A) :
  debounce_run (tr ++ [e]) = debounce_step (debounce_run tr) e.
Proof. unfold debounce_run. rewrite fold_left_app. reflexivity. Qed.

(** After any trace no timer is pending, or exactly the one in [timeout],
    which carries the arguments of the last call. *)
Lemma debounce_pending {A} (tr : list (Event A)) :
  pending (debounce_run tr) = []
  \/ exists t a, pending (debounce_run tr) = [(t, a)]
                 /\ timeout (debounce_run tr) = Some t
                 /\ last_call tr = Some a.
Proof.
  induction tr as [|e tr IH] using rev_ind.
  - left. reflexivity.
  - rewrite debounce_run_snoc. destruct e as [a|t].
    + right. exists (nextTimer (debounce_run tr)), a.
      rewrite last_call_snoc. cbn [debounce_step pending timeout].
      split; [|split; reflexivity].
      destruct IH as [E | (t & b & E & Ht & _)].
      * rewrite E. destruct (timeout (debounce_run tr)); reflexivity.
      * rewrite E, Ht. unfold clearTimeout. cbn [filter fst].
        rewrite Nat.eqb_refl. reflexivity.
    + rewrite last_call_fired. cbn [debounce_step].
      destruct IH as [E | (t' & b & E & Ht & Hl)].
      * rewrite E. cbn. left. exact E.
      * rewrite E. unfold timer_args, clearTimeout. cbn [find filter fst].
        destruct (t' =? t) eqn:Et; cbn [option_map negb pending timeout].
        -- left. reflexivity.
        -- right. exists t', b. rewrite E. auto.
Qed.

(** X18: a debounced function after any trace of calls and timers.  At most
    one timer is pending; the function is invoked no more often than it was
    called, pending call included; a call invokes nothing by itself; a timer
    that fires invokes nothing or the function once, with the arguments of
    the latest call; and the timer of a call, fired right after it, invokes
    the function with the arguments of that call. *)
Theorem debounce_latest_call (A : Type) (tr : list (Event A)) :
  length (pending (debounce_run tr)) <= 1
  /\ length (invoked (debounce_run tr)) + length (pending (debounce_run tr))
     <= length (calls tr)
  /\ (forall a, invoked (debounce_run (tr ++ [Called a])) = invoked (debounce_run tr))
  /\ (forall t, invoked (debounce_run (tr ++ [Fired t])) = invoked (debounce_run tr)
                \/ exists a, last_call tr = Some a
                   /\ invoked (debounce_run (tr ++ [Fired t]))
                      = invoked (debounce_run tr) ++ [a])
  /\ (forall a, invoked (debounce_run (tr ++ [Called a; Fired (nextTimer (debounce_run tr))]))
                = invoked (debounce_run tr) ++ [a]).
Proof.
  split; [|split; [|split; [|split]]].
  - destruct (debounce_pending tr) as [E | (t & a & E & _)]; rewrite E; cbn; lia.
  - induction tr as [|e tr IH] using rev_ind.
    + cbn. lia.
    + rewrite debounce_run_snoc, calls_app, length_app.
      destruct e as [b|t']; cbn [debounce_step calls length invoked pending].
      * rewrite length_app. cbn [length].
        assert (Hc : match timeout (debounce_run tr) with
                     | Some t => clearTimeout t (pending (debounce_run tr))
                     | None => pending (debounce_run tr)
                     end = []).
        { destruct (debounce_pending tr) as [E | (t & a & E & Ht & _)]; rewrite E.
          - destruct (timeout (debounce_run tr)); reflexivity.
          - rewrite Ht. unfold clearTimeout. cbn [filter fst].
            rewrite Nat.eqb_refl. reflexivity. }
        rewrite Hc. cbn [length]. lia.
      * destruct (debounce_pending tr) as [E | (t & a & E & Ht & _)];
          rewrite E in *; unfold timer_args, clearTimeout; cbn [find filter fst].
        -- cbn [option_map]. rewrite E. cbn [length] in *. lia.
        -- destruct (t =? t'); cbn [option_map negb invoked pending];
             rewrite ?length_app, ?E; cbn [length] in *; lia.
  - intro a. rewrite debounce_run_snoc. reflexivity.
  - intro t. rewrite debounce_run_snoc. cbn [debounce_step].
    destruct (debounce_pending tr) as [E | (t' & a & E & Ht & Hl)]; rewrite E.
    + left. reflexivity.
    + unfold timer_args. cbn [find fst]. destruct (t' =? t); cbn [option_map].
      * right. exists a. split; [exact Hl | reflexivity].
      * left. reflexivity.
  - intro a.
    change [Called a; Fired (nextTimer (debounce_run tr))]
      with ([Called a] ++ [Fired (nextTimer (debounce_run tr))]).
    rewrite app_assoc, !debounce_run_snoc.
    cbn [debounce_step pending nextTimer].
    assert (Hc : match timeout (debounce_run tr) with
                 | Some t => clearTimeout t (pending (debounce_run tr))
                 | None => pending (debounce_run tr)
                 end = []).
    { destruct (debounce_pending tr) as [E | (t & b & E & Ht & _)]; rewrite E.
      - destruct (timeout (debounce_run tr)); reflexivity.
      - rewrite Ht. unfold clearTimeout. cbn [filter fst]. rewrite Nat.eqb_refl.
        reflexivity. }
    rewrite Hc. unfold timer_args. cbn [app find fst]. rewrite Nat.eqb_refl.
    reflexivity.
Qed.

Lemma throttle_run_snoc {A} (tr : list (Event A)) (e : Event A) :
  throttle_run (tr ++ [e]) = throttle_step (throttle_run tr) e.
Proof. unfold throttle_run. rewrite fold_left_app. reflexivity. Qed.

Lemma fires_snoc {A} (tr : list (Event A)) (e : Event A) :
  fires (tr ++ [e]) = fires tr + match e with Fired _ => 1 | Called _ => 0 end.
Proof.
  unfold fires. rewrite filter_app, length_app. destruct e; reflexivity.
Qed.

Lemma executed_prefix {A} (tr : list (Event A)) (t : Throttled A) :
  exists rest, executed (fold_left throttle_step tr t) = executed t ++ rest.
Proof.
  revert t; induction tr as [|e tr IH]; intro t.
  - exists []. cbn. rewrite app_nil_r. reflexivity.
  - cbn [fold_left]. destruct (IH (throttle_step t e)) as [rest E]. rewrite E.
    destruct e as [a|r]; cbn [throttle_step].
    + destruct (inThrottle t).
      * exists rest. reflexivity.
      * cbn [executed]. exists (a :: rest). rewrite <- app_assoc. reflexivity.
    + destruct (existsb (Nat.eqb r) (resets t)); exists rest; reflexivity.
Qed.

(** X19: a throttled function after any trace of calls and timers.  While
    it is closed exactly one reset timer is pending, while it is open none,
    so it never stays closed for want of a timer; it has run at most once
    more than timers have fired; and the first call always runs. *)
Theorem throttle_spec (A : Type) (tr : list (Event A)) :
  (if inThrottle (throttle_run tr)
   then exists r, resets (throttle_run tr) = [r]
   else resets (throttle_run tr) = [])
  /\ length (executed (throttle_run tr))
     + (if inThrottle (throttle_run tr) then 0 else 1) <= S (fires tr)
  /\ (forall a, exists rest, executed (throttle_run (Called a :: tr)) = a :: rest).
Proof.
  assert (H1 : if inThrottle (throttle_run tr)
               then exists r, resets (throttle_run tr) = [r]
               else resets (throttle_run tr) = []).
  { induction tr as [|e tr IH] using rev_ind.
    - reflexivity.
    - rewrite throttle_run_snoc. destruct e as [a|r]; cbn [throttle_step].
      + destruct (inThrottle (throttle_run tr)) eqn:E.
        * rewrite ?E. exact IH.
        * cbn [inThrottle resets]. rewrite IH. eexists. reflexivity.
      + destruct (inThrottle (throttle_run tr)) eqn:E.
        * destruct IH as [r' Hr]. rewrite Hr. cbn [existsb]. rewrite orb_false_r.
          destruct (r =? r') eqn:Er.
          -- cbn [inThrottle resets filter]. rewrite Nat.eqb_sym, Er. reflexivity.
          -- rewrite ?E, Hr. eexists; reflexivity.
        * rewrite IH. cbn [existsb]. rewrite ?E. exact IH. }
  split; [exact H1|]. split.
  - clear H1. induction tr as [|e tr IH] using rev_ind.
    + cbn. lia.
    + rewrite throttle_run_snoc, fires_snoc. destruct e as [a|r]; cbn [throttle_step].
      * destruct (inThrottle (throttle_run tr)) eqn:E.
        -- rewrite ?E. lia.
        -- cbn [inThrottle executed]. rewrite length_app. cbn. lia.
      * destruct (existsb (Nat.eqb r) (resets (throttle_run tr))).
        -- cbn [inThrottle executed].
           destruct (inThrottle (throttle_run tr)); lia.
        -- destruct (inThrottle (throttle_run tr)); lia.
  - intro a. unfold throttle_run. cbn [fold_left throttle_step throttle inThrottle].
    match goal with |- exists rest, executed (fold_left _ _ ?t) = _ =>
      destruct (executed_prefix tr t) as [rest E] end.
    exists rest. rewrite E. reflexivity.
Qed.

End UtilsMoreFacts.

(* ===================================================================== *)
(** ** Facts about hooks/useToast.ts *)
(* ===================================================================== *)

Module UseToastFacts.

Import UseToast.

Lemma toString_inj (n m : nat) : toString n = toString m -> n = m.
Proof.
  unfold toString. intro H. apply EngineFacts.str_inj in H.
  apply Unsigned.to_uint_inj.
  assert (E : Some (Nat.to_uint n) = Some (Nat.to_uint m)).
  { rewrite <- !NilEmpty.usu. f_equal. exact H. }
  injection E as E. exact E.
Qed.

Lemma without_In (x : text) (l : list Toast) (t : Toast) :
  In t (without x l) <-> In t l /\ id t <> x.
Proof.
  unfold without. rewrite filter_In. split; intros [H1 H2]; split; try exact H1.
  - intro E. apply text_eqb_eq in E. rewrite E in H2. discriminate.
  - destruct (text_eqb (id t) x) eqn:E; [|reflexivity].
    apply text_eqb_eq in E. contradiction.
Qed.

Lemma without_fresh (x : text) (l : list Toast) :
  (forall t, In t l -> id t <> x) -> without x l = l.
Proof.
  intro H. unfold without. induction l as [|t l IH]; [reflexivity|].
  cbn [filter]. destruct (text_eqb (id t) x) eqn:E.
  - apply text_eqb_eq in E. exfalso. exact (H t (or_introl eq_refl) E).
  - cbn [negb]. f_equal. apply IH. intros t' Ht'. apply H. right. exact Ht'.
Qed.

Lemma without_NoDup (x : text) (l : list Toast) :
  NoDup (map id l) -> NoDup (map id (without x l)).
Proof.
  unfold without. induction l as [|t l IH]; intro H; [constructor|].
  cbn [map] in H. inversion H as [|? ? Hn Hd]; subst.
  cbn [filter]. destruct (negb (text_eqb (id t) x)).
  - cbn [map]. constructor; [|apply IH; exact Hd].
    intro Hin. apply Hn. apply in_map_iff in Hin as (t' & E & Hin).
    apply filter_In in Hin as [Hin _]. apply in_map_iff. exists t'. auto.
  - apply IH. exact Hd.
Qed.

Lemma run_snoc (tr : list Event) (e : Event) : run (tr ++ [e]) = step (run tr) e.
Proof. unfold run. rewrite fold_left_app. reflexivity. Qed.

(** After any trace the identifiers of the toasts shown and of the pending
    timers are used ones, and no two toasts shown share one. *)
Lemma run_invariant (tr : list Event) :
  (forall t, In t (toasts (run tr)) -> used (run tr) (id t))
  /\ (forall x, In x (timers (run tr)) -> used (run tr) x)
  /\ NoDup (map id (toasts (run tr))).
Proof.
  induction tr as [|e tr IH] using rev_ind.
  - cbn. split; [|split]; try constructor; intros ? [].
  - rewrite run_snoc. destruct IH as (Ht & Hx & Hd).
    set (s := run tr) in *. destruct e as [i|x|x|]; cbn [step].
    + cbn [toast fst toasts timers toastCount]. split; [|split].
      * intros t Hin. apply in_app_iff in Hin as [Hin | [<- | []]].
        -- destruct (Ht t Hin) as (k & Hk & E). exists k. cbn. split; [lia|exact E].
        -- exists (S (toastCount s)). cbn. split; [lia|reflexivity].
      * intros y Hin.
        assert (H : In y (timers s ++ [toString (S (toastCount s))])).
        { destruct (0 <? _)%Z; [exact Hin | apply in_app_iff; left; exact Hin]. }
        apply in_app_iff in H as [H | [<- | []]].
        -- destruct (Hx y H) as (k & Hk & E). exists k. cbn. split; [lia|exact E].
        -- exists (S (toastCount s)). cbn. split; [lia|reflexivity].
      * rewrite map_app. cbn [map id]. apply NoDup_app; [exact Hd | | ].
        -- constructor; [intros []|constructor].
        -- intros y Hy [<- | []]. apply in_map_iff in Hy as (t & E & Hin).
           destruct (Ht t Hin) as (k & Hk & E'). rewrite E' in E.
           apply toString_inj in E. lia.
    + cbn [dismiss toasts timers]. split; [|split].
      * intros t Hin. apply without_In in Hin as [Hin _]. exact (Ht t Hin).
      * exact Hx.
      * apply without_NoDup. exact Hd.
    + destruct (existsb (text_eqb x) (timers s)); [|auto].
      cbn [toasts timers]. split; [|split].
      * intros t Hin. apply without_In in Hin as [Hin _]. exact (Ht t Hin).
      * intros y Hin. apply filter_In in Hin as [Hin _]. exact (Hx y Hin).
      * apply without_NoDup. exact Hd.
    + cbn [toasts timers]. split; [|split].
      * intros t Hin. destruct (Ht t Hin) as (k & Hk & E). exists k. cbn.
        split; [lia|exact E].
      * intros y Hin. destruct (Hx y Hin) as (k & Hk & E). exists k. cbn.
        split; [lia|exact E].
      * exact Hd.
Qed.

(** X20: after any trace of calls of [toast] and [dismiss], of timers and
    of toasts raised by other components, no two toasts shown share an
    [id], and the [id] the next call of [toast] gives is the [id] of no
    toast shown and of no pending timer. *)
Theorem toast_ids_unique (tr : list Event) (i : ToastInput) :
  NoDup (map id (toasts (run tr)))
  /\ ~ In (snd (toast i (run tr))) (map id (toasts (run tr)))
  /\ ~ In (snd (toast i (run tr))) (timers (run tr)).
Proof.
  destruct (run_invariant tr) as (Ht & Hx & Hd). split; [exact Hd|].
  cbn [toast snd]. split.
  - intro Hin. apply in_map_iff in Hin as (t & E & Hin).
    destruct (Ht t Hin) as (k & Hk & E'). rewrite E' in E.
    apply toString_inj in E. lia.
  - intro Hin. destruct (Hx _ Hin) as (k & Hk & E).
    apply toString_inj in E. lia.
Qed.

(** X21: [dismiss] of the handle that [toast] returns undoes the call:
    after any trace, raising a toast and dismissing it leaves the toasts
    that were shown before, in their order. *)
Theorem toast_dismiss (tr : list Event) (i : ToastInput) :
  toasts (dismiss (snd (toast i (run tr))) (fst (toast i (run tr))))
  = toasts (run tr)
  /\ toasts (run (tr ++ [Toasted i; Dismissed (snd (toast i (run tr)))]))
     = toasts (run tr).
Proof.
  assert (H : toasts (dismiss (snd (toast i (run tr))) (fst (toast i (run tr))))
              = toasts (run tr)).
  { destruct (run_invariant tr) as (Ht & _ & _).
    cbn [toast fst snd dismiss toasts]. unfold without. rewrite filter_app.
    cbn [filter id].
    replace (text_eqb _ _) with true
      by (symmetry; apply text_eqb_eq; reflexivity).
    cbn [negb]. rewrite app_nil_r. apply without_fresh.
    intros t Hin E. destruct (Ht t Hin) as (k & Hk & E'). rewrite E' in E.
    apply toString_inj in E. lia. }
  split; [exact H|].
  change [Toasted i; Dismissed (snd (toast i (run tr)))]
    with ([Toasted i] ++ [Dismissed (snd (toast i (run tr)))]).
  rewrite app_assoc, !run_snoc. exact H.
Qed.

(** X22: a toast raised with a duration of zero or less gets no timer: it
    is shown after every trace that does not dismiss it, whatever timers
    fire and whatever other toasts come and go. *)
Theorem persistent_toast (tr tr' : list Event) (i : ToastInput) (d : Z) :
  input_duration i = Some d -> (d <= 0)%Z ->
  existsb (dismisses (snd (toast i (run tr)))) tr' = false ->
  exists t, In t (toasts (run (tr ++ Toasted i :: tr')))
            /\ id t = snd (toast i (run tr)) /\ title t = input_title i.
Proof.
  intros Hd Hle Hno.
  set (x := snd (toast i (run tr))).
  set (t := {| id := x; title := input_title i; description := input_description i;
               variant := match input_variant i with Some v => v | None => default end;
               duration := d |}).
  exists t. split; [|split; reflexivity].
  assert (H0 : In t (toasts (run (tr ++ [Toasted i])))
               /\ ~ In x (timers (run (tr ++ [Toasted i])))
               /\ used (run (tr ++ [Toasted i])) x).
  { rewrite run_snoc. cbn [step toast fst toasts timers]. rewrite Hd.
    replace (0 <? d)%Z with false by (symmetry; apply Z.ltb_ge; exact Hle).
    split; [|split].
    - apply in_app_iff. right. left. reflexivity.
    - apply (toast_ids_unique tr i).
    - exists (S (toastCount (run tr))). split; [cbn; lia | reflexivity]. }
  change (Toasted i :: tr') with ([Toasted i] ++ tr'). rewrite app_assoc.
  unfold run in *. rewrite fold_left_app.
  generalize dependent (fold_left step (tr ++ [Toasted i]) initial).
  clear -Hno. induction tr' as [|e tr' IH]; intros s (Hin & Hnt & Hu).
  - exact Hin.
  - cbn [fold_left]. cbn [existsb] in Hno. apply orb_false_iff in Hno as [He Hno].
    apply IH; [exact Hno|]. destruct Hu as (k & Hk & Ek).
    destruct e as [j|y|y|]; cbn [step].
    + cbn [toast fst toasts timers]. split; [|split].
      * apply in_app_iff. left. exact Hin.
      * intro H.
        assert (H' : In x (timers s ++ [toString (S (toastCount s))])).
        { destruct (0 <? _)%Z; [exact H | apply in_app_iff; left; exact H]. }
        apply in_app_iff in H' as [H' | [E | []]]; [exact (Hnt H')|].
        rewrite Ek in E. apply toString_inj in E. lia.
      * exists k. cbn. split; [lia|exact Ek].
    + cbn [dismiss toasts timers]. split; [|split; [exact Hnt|exists k; auto]].
      apply without_In. split; [exact Hin|]. cbn [dismisses] in He.
      intro E. change (x = y) in E. rewrite <- E in He.
      change (text_eqb x x = false) in He.
      rewrite (proj2 (text_eqb_eq x x) eq_refl) in He. discriminate.
    + destruct (existsb (text_eqb y) (timers s)) eqn:Ey;
        [|split; [exact Hin|split; [exact Hnt|exists k; auto]]].
      cbn [toasts timers]. split; [|split; [|exists k; auto]].
      * apply without_In. split; [exact Hin|]. intro E. change (x = y) in E.
        subst y. apply Hnt. apply existsb_exists in Ey as (z & Hz & Ez).
        apply text_eqb_eq in Ez. subst z. exact Hz.
      * intro H. apply filter_In in H as [H _]. exact (Hnt H).
    + cbn [toasts timers]. split; [exact Hin|split; [exact Hnt|]].
      exists k. cbn. split; [lia|exact Ek].
Qed.

Lemma persistent_toast_witness :
  exists t,
    In t (toasts (run ([Elsewhere]
                       ++ Toasted {| input_title := str "a"; input_description := None;
                                     input_variant := None;
                                     input_duration := Some 0%Z |}
                       :: [Expired (str "2"); Dismissed (str "1"); Elsewhere])))
    /\ id t = str "2" /\ title t = str "a".
Proof.
  refine (persistent_toast [Elsewhere]
            [Expired (str "2"); Dismissed (str "1"); Elsewhere] _ 0%Z _ _ _).
  - reflexivity.
  - lia.
  - vm_compute. reflexivity.
Defined.

End UseToastFacts.

(* ===================================================================== *)
(** ** Facts about the handlers of SafeDialogApp and the steps *)
(* ===================================================================== *)

Module SafeDialogAppFacts.

Import SafeDialogApp.

(** X23: skipping the masking sends the texts as they were typed.  When a
    field holds text, the skip of the step component leads to the last
    step, and [handleProcessText] then calls the model with the original
    query and context under their labels, joined by an empty line; the
    state it ends with holds the answer, or the error and an empty result. *)
Theorem skipped_masking_sends_original
    (mutateAsync : text -> JsValue -> Outcome JsValue) (a : AppState)
    (p : Stepwise.Processor) :
  Stepwise.canProceedFromInput a = true ->
  Stepwise.currentStep (snd (Stepwise.handleSkipMasking a p)) = Stepwise.ai_processing
  /\ handleProcessText mutateAsync (fst (Stepwise.handleSkipMasking a p))
     = let sent :=
         join (filter (fun t => match t with [] => false | _ => true end)
                 [if trim_truthy (queryText a) then query_label ++ queryText a else [];
                  if trim_truthy (contextText a)
                  then context_label ++ contextText a else []]) in
       let skipped := fst (handleSkipMasking a) in
       match and_then (mutateAsync sent (js_or (systemPrompt a) (JString [])))
               (fun r => and_then (preview r) (fun _ => Ok r)) with
       | Ok r => Ok (set_result r (JString []) None skipped,
                     [TextProcessed (length_or_0 r)])
       | Throw e => Ok (set_result (JString []) (JString []) (Some (message_of e)) skipped,
                        [])
       end.
Proof.
  intro H. split; [reflexivity|].
  unfold Stepwise.canProceedFromInput in H.
  unfold handleProcessText, Stepwise.handleSkipMasking, handleSkipMasking.
  cbn [fst maskedQueryText maskedContextText systemPrompt trim].
  destruct (trim_truthy (queryText a)) eqn:Hq;
    destruct (trim_truthy (contextText a)) eqn:Hc;
    try discriminate H; cbn [negb andb]; unfold combinedText;
    cbn [maskedQueryText maskedContextText template]; reflexivity.
Qed.

Lemma skipped_masking_sends_original_witness :
  Stepwise.currentStep
    (snd (Stepwise.handleSkipMasking
            (handleQueryTextChange (str "call Ivan") initial) Stepwise.initial))
  = Stepwise.ai_processing
  /\ handleProcessText (fun t _ => Ok (JString t))
       (fst (Stepwise.handleSkipMasking
               (handleQueryTextChange (str "call Ivan") initial) Stepwise.initial))
     = Ok (set_result (JString (query_label ++ str "call Ivan")) (JString []) None
             (fst (handleSkipMasking (handleQueryTextChange (str "call Ivan") initial))),
           [TextProcessed 17]).
Proof.
  exact (skipped_masking_sends_original (fun t _ => Ok (JString t))
           (handleQueryTextChange (str "call Ivan") initial) Stepwise.initial
           eq_refl).
Defined.





(** X26: a masked text that is not a string breaks the last step.  When
    the mask call for the query fulfils with a truthy [maskedText] that is
    not a string, [handleMaskText] stores it, [handleNext] leaves the
    masking step for the last one, and [handleProcessText] throws a
    [TypeError] before it calls the model. *)
Theorem non_text_mask_breaks_processing
    (mask : nat -> TextProcessingInput -> Settled MaskingResult)
    (mutateAsync : text -> JsValue -> Outcome JsValue)
    (a : AppState) (p : Stepwise.Processor) (r : MaskingResult) :
  trim_truthy (queryText a) = true ->
  trim_truthy (contextText a) = false ->
  outcome (mask 0 {| text_ := queryText a;
                     Types.systemPrompt := Some (maskingPrompt a) |}) = Ok r ->
  truthy (maskedText r) = true ->
  (forall s, maskedText r <> JString s) ->
  Stepwise.currentStep p = Stepwise.masking ->
  maskedQueryText (fst (handleMaskText mask a)) = maskedText r
  /\ Stepwise.currentStep (Stepwise.handleNext (fst (handleMaskText mask a)) p)
     = Stepwise.ai_processing
  /\ handleProcessText mutateAsync (fst (handleMaskText mask a)) = Throw TypeError.
Proof.
  intros Hq Hc Hr Ht Hs Hp.
  assert (E : maskedQueryText (fst (handleMaskText mask a)) = maskedText r).
  { unfold handleMaskText, App.handleMaskText.
    cbn [masking_part App.queryText App.contextText App.maskingPrompt].
    rewrite Hq, Hc. cbn [negb andb app]. unfold Promise_all.
    cbn [first_rejection then_ outcome values map]. 
    destruct (mask 0 _) as [t o]. cbn [outcome] in Hr. subst o.
    cbn. reflexivity. }
  split; [exact E|]. split.
  - unfold Stepwise.handleNext. rewrite Hp. unfold Stepwise.hasMaskedData.
    rewrite E, Ht. reflexivity.
  - unfold handleProcessText. rewrite E.
    destruct (maskedText r); try reflexivity. exfalso. exact (Hs _ eq_refl).
Qed.

Lemma non_text_mask_breaks_processing_witness :
  handleProcessText (fun t _ => Ok (JString t))
    (fst (handleMaskText
            (fun _ _ => {| settledAt := 0;
                           outcome := Ok {| maskedText := JNumber 5;
                                            entitiesFound := JUndefined;
                                            processingTime := JUndefined |} |})
            (handleQueryTextChange (str "hi") initial)))
  = Throw TypeError.
Proof.
  refine (proj2 (proj2
            (non_text_mask_breaks_processing
               (fun _ _ => {| settledAt := 0;
                              outcome := Ok {| maskedText := JNumber 5;
                                               entitiesFound := JUndefined;
                                               processingTime := JUndefined |} |})
               (fun t _ => Ok (JString t))
               (handleQueryTextChange (str "hi") initial)
               (Stepwise.set_step Stepwise.masking Stepwise.initial)
               {| maskedText := JNumber 5; entitiesFound := JUndefined;
                  processingTime := JUndefined |}
               eq_refl eq_refl eq_refl eq_refl _ eq_refl))).
  intros s H. discriminate H.
Defined.

End SafeDialogAppFacts.

Module StepwiseFacts.

Import SafeDialogApp Stepwise.

(** X27: [handleClearAll] empties the two fields and returns to the first
    step, from which [handleNext] cannot go on; it keeps both masked texts
    and the result shown, and [handleProcessText] afterwards behaves as it
    would have before: same toasts, same result and same error. *)
Theorem handleClearAll_keeps_masked (a : AppState) (p : Processor) :
  canProceedFromInput (fst (handleClearAll a p)) = false
  /\ currentStep (snd (handleClearAll a p)) = input
  /\ maskedQueryText (fst (handleClearAll a p)) = maskedQueryText a
  /\ maskedContextText (fst (handleClearAll a p)) = maskedContextText a
  /\ shown_result (fst (handleClearAll a p)) = shown_result a
  /\ forall mutateAsync,
       match handleProcessText mutateAsync (fst (handleClearAll a p)),
             handleProcessText mutateAsync a with
       | Ok (s1, n1), Ok (s2, n2) =>
           n1 = n2 /\ resultText s1 = resultText s2 /\ error s1 = error s2
       | Throw e1, Throw e2 => e1 = e2
       | _, _ => False
       end.
Proof.
  unfold handleClearAll. cbn [fst snd currentStep].
  destruct (globalViewMode p);
    (split; [reflexivity|]); (split; [reflexivity|]); (split; [reflexivity|]);
    (split; [reflexivity|]); (split; [reflexivity|]);
    intro f; unfold handleProcessText;
    cbn [handleViewModeChange handleContextTextChange handleQueryTextChange
         maskedQueryText maskedContextText systemPrompt];
    destruct (trim (maskedQueryText a)) as [q|e]; try reflexivity;
    destruct (trim (maskedContextText a)) as [c|e]; try reflexivity;
    destruct (negb q && negb c); auto;
    unfold combinedText; cbn [maskedQueryText maskedContextText];
    destruct (and_then _ _); cbn; auto.
Qed.

(** X28: [handleNext] does nothing, or moves one step on in a way that
    [handleBack] undoes (from the input when a field holds text, from the
    masking when a masked text is there), or stays on the masking step and
    opens the dialog that offers to skip it. *)
Theorem handleNext_one_step (a : AppState) (p : Processor) :
  handleNext a p = p
  \/ (handleBack (handleNext a p) = p
      /\ match currentStep p with
         | input => canProceedFromInput a = true /\ currentStep (handleNext a p) = masking
         | masking => hasMaskedData a = true /\ currentStep (handleNext a p) = ai_processing
         | ai_processing => False
         end)
  \/ (currentStep p = masking /\ hasMaskedData a = false
      /\ currentStep (handleNext a p) = masking
      /\ showSkipMaskingDialog (handleNext a p) = true).
Proof.
  unfold handleNext, handleBack. destruct p as [st dlg g]. cbn [currentStep].
  destruct st.
  - destruct (canProceedFromInput a); [|left; reflexivity].
    right. left. split; [reflexivity|]. split; reflexivity.
  - destruct (hasMaskedData a).
    + right. left. split; [reflexivity|]. split; reflexivity.
    + right. right. repeat split.
  - left. reflexivity.
Qed.

End StepwiseFacts.
